(** * Snake (vibe-coding/snake-chatgpt/src/App.jsx): model and properties

    The component keeps its game in React state cells ([useState]), two
    refs used by the frame loop, and one [localStorage] key.  The model is
    explicit state passing over a record [Store] holding all of them.

    A render of the component closes over the values the state cells had
    at that render: [step], [onKeyDown] and [loop] read [dir], [nextDir],
    [food], [score], [tickMs], [paused] and [gameOver] from that closure,
    while functional updates ([setSnake (prev => ...)], [setTickMs (t => ...)],
    [setBest (prev => ...)], [setPaused (p => !p)]), the refs and
    [localStorage] read the live value.  The functions below therefore take
    two stores: [view], the snapshot the closure was created from, and the
    live store they update.  A closure created by the latest render is the
    case [view = st].

    JS numbers are modelled by [Z] where the program only ever holds
    integers (coordinates, score, best, tick interval) and by [Q] for times
    and for the draws of [Math.random]. *)

From Stdlib Require Import ZArith QArith Qround Qminmax List String Ascii Bool Lia.
From Stdlib Require Import Lqa.
Import ListNotations.

#[local] Open Scope Z_scope.

(** ** Results of running a piece of the program *)

(** [TypeError]: reading a property of [undefined].  [NoDraw]: the finite
    tape of random draws ran out inside [placeFood]'s retry loop (the loop
    of the source has no exit but a free cell).  [OutOfFuel]: the frame
    loop was cut off by its iteration budget.  [Unmodelled]: the program
    has left the data this model covers: a stored string outside the
    fragment of numeric literals that [js_Number] reads, or a key that
    makes [onKeyDown] buffer a member inherited from [Object.prototype]
    as the next direction. *)
Inductive res (A : Type) : Type :=
| Ret (a : A)
| TypeError
| NoDraw
| OutOfFuel
| Unmodelled.

Arguments Ret {A} a.
Arguments TypeError {A}.
Arguments NoDraw {A}.
Arguments OutOfFuel {A}.
Arguments Unmodelled {A}.

Definition bind {A B : Type} (m : res A) (k : A -> res B) : res B :=
  match m with
  | Ret a => k a
  | TypeError => TypeError
  | NoDraw => NoDraw
  | OutOfFuel => OutOfFuel
  | Unmodelled => Unmodelled
  end.

Notation "'let*' p ':=' m 'in' k" := (bind m (fun p => k))
  (at level 10, p pattern, m at level 100, k at level 200).

(** ** Constants *)

Definition GRID : Z := 24.
Definition BASE_TICK_MS : Z := 120.
Definition SPEEDUP_PER_FOOD : Q := 98 # 100.
Definition MIN_TICK_MS : Z := 55.

(** ** Cells and directions: JS objects [{x, y}] *)

Record Cell : Type := mkCell { x : Z; y : Z }.

Definition cell_eq_dec (a b : Cell) : {a = b} + {a <> b}.
Proof. decide equality; apply Z.eq_dec. Defined.

(** [Math.max(a, Math.min(b, n))] *)
Definition clamp (n a b : Q) : Q := Qmax a (Qmin b n).

(** [Math.floor(Math.random() * (max - min + 1)) + min], where [u] is the
    value drawn by [Math.random()], taken as an exact rational. *)
Definition randInt (min max : Z) (u : Q) : Z :=
  Qfloor (u * inject_Z (max - min + 1)) + min.

Definition same (a b : Cell) : bool :=
  (x a =? x b) && (y a =? y b).

Definition opposite (a b : Cell) : bool :=
  (x a =? - x b) && (y a =? - y b).

Definition makeInitialSnake : list Cell :=
  let start := {| x := GRID / 2; y := GRID / 2 |} in
  [ {| x := x start; y := y start |};
    {| x := x start - 1; y := y start |};
    {| x := x start - 2; y := y start |} ].

(** [snake.some((s) => same(s, f))] *)
Definition occupied (snake : list Cell) (f : Cell) : bool :=
  existsb (fun s => same s f) snake.

(** [placeFood]: each turn of the [while (true)] loop takes two draws, the
    first for [x] and the second for [y]; the tape is what is left of the
    draws, and a tape that ends before a free cell comes up is [NoDraw]. *)
Fixpoint placeFood (snake : list Cell) (tape : list Q) : res (Cell * list Q) :=
  match tape with
  | u :: v :: rest =>
      let f := {| x := randInt 0 (GRID - 1) u; y := randInt 0 (GRID - 1) v |} in
      if negb (occupied snake f) then Ret (f, rest) else placeFood snake rest
  | _ => NoDraw
  end.

(** ** The store *)

Record Store : Type := mkStore {
  snake : list Cell;
  dir : Cell;
  nextDir : Cell;
  food : Cell;
  score : Z;
  best : Z;
  tickMs : Z;
  paused : bool;
  gameOver : bool;
  (** [accRef.current] and [lastRef.current] *)
  accRef : Q;
  lastRef : Q;
  (** the item under the key ["snake_best_react"]; [None] is an absent key *)
  localStorage : option string
}.

Definition setSnake (v : list Cell) (st : Store) : Store :=
  mkStore v (dir st) (nextDir st) (food st) (score st) (best st) (tickMs st)
    (paused st) (gameOver st) (accRef st) (lastRef st) (localStorage st).
Definition setDir (v : Cell) (st : Store) : Store :=
  mkStore (snake st) v (nextDir st) (food st) (score st) (best st) (tickMs st)
    (paused st) (gameOver st) (accRef st) (lastRef st) (localStorage st).
Definition setNextDir (v : Cell) (st : Store) : Store :=
  mkStore (snake st) (dir st) v (food st) (score st) (best st) (tickMs st)
    (paused st) (gameOver st) (accRef st) (lastRef st) (localStorage st).
Definition setFood (v : Cell) (st : Store) : Store :=
  mkStore (snake st) (dir st) (nextDir st) v (score st) (best st) (tickMs st)
    (paused st) (gameOver st) (accRef st) (lastRef st) (localStorage st).
Definition setScore (v : Z) (st : Store) : Store :=
  mkStore (snake st) (dir st) (nextDir st) (food st) v (best st) (tickMs st)
    (paused st) (gameOver st) (accRef st) (lastRef st) (localStorage st).
Definition setBest (v : Z) (st : Store) : Store :=
  mkStore (snake st) (dir st) (nextDir st) (food st) (score st) v (tickMs st)
    (paused st) (gameOver st) (accRef st) (lastRef st) (localStorage st).
Definition setTickMs (v : Z) (st : Store) : Store :=
  mkStore (snake st) (dir st) (nextDir st) (food st) (score st) (best st) v
    (paused st) (gameOver st) (accRef st) (lastRef st) (localStorage st).
Definition setPaused (v : bool) (st : Store) : Store :=
  mkStore (snake st) (dir st) (nextDir st) (food st) (score st) (best st) (tickMs st)
    v (gameOver st) (accRef st) (lastRef st) (localStorage st).
Definition setGameOver (v : bool) (st : Store) : Store :=
  mkStore (snake st) (dir st) (nextDir st) (food st) (score st) (best st) (tickMs st)
    (paused st) v (accRef st) (lastRef st) (localStorage st).
Definition setAcc (v : Q) (st : Store) : Store :=
  mkStore (snake st) (dir st) (nextDir st) (food st) (score st) (best st) (tickMs st)
    (paused st) (gameOver st) v (lastRef st) (localStorage st).
Definition setLast (v : Q) (st : Store) : Store :=
  mkStore (snake st) (dir st) (nextDir st) (food st) (score st) (best st) (tickMs st)
    (paused st) (gameOver st) (accRef st) v (localStorage st).
(** [localStorage.setItem("snake_best_react", v)] *)
Definition setItem (v : string) (st : Store) : Store :=
  mkStore (snake st) (dir st) (nextDir st) (food st) (score st) (best st) (tickMs st)
    (paused st) (gameOver st) (accRef st) (lastRef st) (Some v).

(** ** [String] and [Number] on the values the program stores *)

Inductive jsnum : Type :=
| JInt (z : Z)
| JNaN
| JInf (negative : bool).

(** The integers a double holds exactly, one by one: up to 2^53 in
    magnitude.  On these [String] prints all the decimal digits and
    [Number] reads a run of digits without rounding. *)
Definition MAX_EXACT : Z := 2 ^ 53.

(** The character of the decimal digit [d], [0 <= d <= 9]. *)
Definition digitChar (d : Z) : ascii := ascii_of_nat (48 + Z.to_nat d).

(** The value of a decimal digit character. *)
Definition digitOf (c : ascii) : option Z :=
  let n := nat_of_ascii c in
  if ((48 <=? n) && (n <=? 57))%nat then Some (Z.of_nat n - 48) else None.

(** The decimal digits of [n >= 0], most significant first, put in front
    of [acc]; [fuel] bounds their number. *)
Fixpoint toDigits (fuel : nat) (n : Z) (acc : string) : string :=
  match fuel with
  | O => acc
  | S fuel' =>
      let acc' := String (digitChar (n mod 10)) acc in
      if n <? 10 then acc' else toDigits fuel' (n / 10) acc'
  end.

(** A number has no more decimal digits than binary ones. *)
Definition digits (n : Z) : string :=
  toDigits (S (Z.to_nat (Z.log2 n))) n EmptyString.

(** [String(b)] for an integer [b]: an optional minus sign and the decimal
    digits without leading zeros.  This is what JS prints for the integers
    up to [MAX_EXACT] in magnitude; beyond them a double skips integers,
    [String] prints the shortest digits that identify the double and, from
    10^21 on, an exponent: statements about the stored string are made
    within [MAX_EXACT]. *)
Definition js_String (b : Z) : string :=
  if b <? 0 then String "-" (digits (- b)) else digits b.

(** The ASCII members of JS's StrWhiteSpaceChar: TAB, LF, VT, FF, CR, SP. *)
Definition isWhiteSpace (c : ascii) : bool :=
  let n := nat_of_ascii c in
  ((9 <=? n) && (n <=? 13))%nat || (n =? 32)%nat.

Fixpoint trimStart (s : string) : string :=
  match s with
  | String c r => if isWhiteSpace c then trimStart r else s
  | EmptyString => EmptyString
  end.

Fixpoint trimEnd (s : string) : string :=
  match s with
  | String c r =>
      match trimEnd r with
      | EmptyString => if isWhiteSpace c then EmptyString else String c EmptyString
      | r' => String c r'
      end
  | EmptyString => EmptyString
  end.

Definition isAsciiLetter (c : ascii) : bool :=
  let n := nat_of_ascii c in
  (((65 <=? n) && (n <=? 90)) || ((97 <=? n) && (n <=? 122)))%nat.

(** The mathematical value of a run of decimal digits, read left to
    right from the value [acc] of the digits before it; [None] at a
    character that is no digit. *)
Fixpoint digitsValue (s : string) (acc : Z) : option Z :=
  match s with
  | EmptyString => Some acc
  | String c r =>
      match digitOf c with
      | Some d => digitsValue r (acc * 10 + d)
      | None => None
      end
  end.

(** An unsigned literal: decimal digits, or [Infinity].  A run of digits
    whose value is above [MAX_EXACT] is rounded to a double by [Number],
    and to [Infinity] when it is large enough: that is outside the
    fragment, [None]. *)
Definition unsignedLiteral (s : string) : option jsnum :=
  if String.eqb s "Infinity" then Some (JInf false)
  else
    match s with
    | EmptyString => None
    | String c _ =>
        match digitsValue s 0 with
        | Some z => if z <=? MAX_EXACT then Some (JInt z) else None
        | None =>
            if isAsciiLetter c then Some JNaN else None
        end
    end.

Definition negate (v : jsnum) : jsnum :=
  match v with
  | JInt z => JInt (- z)
  | JNaN => JNaN
  | JInf n => JInf (negb n)
  end.

(** [Number(s)] for a string [s].  Covered: white space only (0), an
    optionally signed run of decimal digits of value at most [MAX_EXACT],
    optionally signed [Infinity], and strings that start with a letter and
    are none of these (NaN), all with surrounding ASCII white space.
    Longer runs of digits, literals with a fraction, an exponent or a
    radix prefix are outside the fragment: [None].  JS also trims
    non-ASCII white space: [Infinity] followed by such is [Infinity] where
    the model says NaN, neither of them finite. *)
Definition js_Number (s : string) : option jsnum :=
  match trimEnd (trimStart s) with
  | EmptyString => Some (JInt 0)
  | String "+" r => unsignedLiteral r
  | String "-" r => option_map negate (unsignedLiteral r)
  | t => unsignedLiteral t
  end.

(** The initialiser of the [best] state cell:
    [Number(localStorage.getItem(key) || 0)], then [Number.isFinite(v) ? v : 0].
    [getItem] gives [null] for an absent key; [null] and the empty string
    are falsy, so [|| 0] replaces them by 0. *)
Definition initBest (item : option string) : option Z :=
  let v :=
    match item with
    | None => Some (JInt 0)
    | Some EmptyString => Some (JInt 0)
    | Some s => js_Number s
    end in
  match v with
  | Some (JInt z) => Some z
  | Some JNaN => Some 0
  | Some (JInf _) => Some 0
  | None => None
  end.

(** ** The component's functions *)

(** The values of the state cells after mounting, for the food cell [f]
    and the best score [b] the initialisers came up with. *)
Definition initialStore (f : Cell) (b : Z) (item : option string) : Store :=
  {| snake := makeInitialSnake;
     dir := {| x := 1; y := 0 |};
     nextDir := {| x := 1; y := 0 |};
     food := f;
     score := 0;
     best := b;
     tickMs := BASE_TICK_MS;
     paused := false;
     gameOver := false;
     accRef := 0;
     lastRef := 0;
     localStorage := item |}.

(** The [useState] initialisers of the first render, in source order. *)
Definition mount (item : option string) (tape : list Q) : res (Store * list Q) :=
  let* (f, tape') := placeFood makeInitialSnake tape in
  match initBest item with
  | Some b => Ret (initialStore f b item, tape')
  | None => Unmodelled
  end.

Definition reset (tape : list Q) (st : Store) : res (Store * list Q) :=
  let s := makeInitialSnake in
  let st := setSnake s st in
  let st := setDir {| x := 1; y := 0 |} st in
  let st := setNextDir {| x := 1; y := 0 |} st in
  let* (f, tape') := placeFood s tape in
  let st := setFood f st in
  let st := setScore 0 st in
  let st := setTickMs BASE_TICK_MS st in
  let st := setPaused false st in
  let st := setGameOver false st in
  Ret (setAcc 0 st, tape').

(** [setBest]'s updater reads the live [best] and writes the item on every
    call. *)
Definition endGame (finalScore : Z) (st : Store) : Store :=
  let st := setGameOver true st in
  let st := setPaused false st in
  let b := Z.max (best st) finalScore in
  let st := setItem (js_String b) st in
  setBest b st.

(** [if (!opposite(nextDir, dir)) appliedDir = nextDir] *)
Definition appliedDir (view : Store) : Cell :=
  if negb (opposite (nextDir view) (dir view)) then nextDir view else dir view.

(** [willEat ? prevSnake : prevSnake.slice(0, -1)] *)
Definition bodyToCheck (willEat : bool) (prevSnake : list Cell) : list Cell :=
  if willEat then prevSnake else removelast prevSnake.

(** [Math.max(MIN_TICK_MS, Math.floor(t * SPEEDUP_PER_FOOD))].  The product
    is taken exactly; on the whole numbers of milliseconds the cell holds,
    the double product has the same floor. *)
Definition nextTick (t : Z) : Z :=
  Z.max MIN_TICK_MS (Qfloor (inject_Z t * SPEEDUP_PER_FOOD)).

(** [step].  [gameOver], [paused], [dir], [nextDir], [food] and [score] come
    from the closure; [prevSnake] and the [t] of [setTickMs] are live.
    [appliedDir !== dir] compares object identity in the source; the cell
    is left alone when the two are the same value, and otherwise receives
    [appliedDir]. *)
Definition step (view : Store) (tape : list Q) (st : Store) : res (Store * list Q) :=
  if gameOver view || paused view then Ret (st, tape)
  else
    let prevSnake := snake st in
    let d := appliedDir view in
    let st := if negb (same d (dir view)) then setDir d st else st in
    match prevSnake with
    | [] => TypeError
    | head :: _ =>
        let nx := x head + x d in
        let ny := y head + y d in
        if (nx <? 0) || (ny <? 0) || (nx >=? GRID) || (ny >=? GRID) then
          Ret (setSnake prevSnake (endGame (score view) st), tape)
        else
          let nextHead := {| x := nx; y := ny |} in
          let willEat := same nextHead (food view) in
          if existsb (fun s => same s nextHead) (bodyToCheck willEat prevSnake) then
            Ret (setSnake prevSnake (endGame (score view) st), tape)
          else
            let nextSnake := nextHead :: prevSnake in
            if willEat then
              let nextScore := score view + 1 in
              let st := setScore nextScore st in
              let st := setTickMs (nextTick (tickMs st)) st in
              let* (newFood, tape') := placeFood nextSnake tape in
              let st := setFood newFood st in
              Ret (setSnake nextSnake st, tape')
            else
              Ret (setSnake (removelast nextSnake) st, tape)
    end.

(** ** Keyboard *)

Record KeyboardEvent : Type := mkKey { code : string; key : string }.

Definition dirs : list (string * Cell) :=
  [ ("ArrowUp", {| x := 0; y := -1 |});
    ("ArrowDown", {| x := 0; y := 1 |});
    ("ArrowLeft", {| x := -1; y := 0 |});
    ("ArrowRight", {| x := 1; y := 0 |});
    ("w", {| x := 0; y := -1 |});
    ("s", {| x := 0; y := 1 |});
    ("a", {| x := -1; y := 0 |});
    ("d", {| x := 1; y := 0 |});
    ("W", {| x := 0; y := -1 |});
    ("S", {| x := 0; y := 1 |});
    ("A", {| x := -1; y := 0 |});
    ("D", {| x := 1; y := 0 |}) ]%string.

(** The own members of the table: [Some v] when [k] is one of its keys. *)
Fixpoint lookup (k : string) (m : list (string * Cell)) : option Cell :=
  match m with
  | [] => None
  | (k', v) :: m' => if String.eqb k k' then Some v else lookup k m'
  end.

(** The names an object literal inherits from [Object.prototype].  A
    property access under one of them finds a function, or the prototype
    itself for [__proto__]: a truthy value with no numeric [x] and [y]. *)
Definition inheritedNames : list string :=
  [ "constructor"; "hasOwnProperty"; "isPrototypeOf"; "propertyIsEnumerable";
    "toLocaleString"; "toString"; "valueOf"; "__proto__";
    "__defineGetter__"; "__defineSetter__"; "__lookupGetter__";
    "__lookupSetter__" ]%string.

Definition inherited (k : string) : bool :=
  existsb (String.eqb k) inheritedNames.

(** [onKeyDown].  [dirs[e.key]] is the table's own member when [e.key] is
    one of its keys and [undefined] for most other keys; under an
    inherited name it is a value that passes [if (d)] and is not
    [opposite] to anything (its [x] is [undefined]), so the source buffers
    it with [setNextDir]: the next direction is then no cell of numbers
    and the run leaves this model, [Unmodelled]. *)
Definition onKeyDown (view : Store) (e : KeyboardEvent) (tape : list Q) (st : Store)
  : res (Store * list Q) :=
  if String.eqb (code e) "Space" then
    Ret ((if negb (gameOver view) then setPaused (negb (paused st)) st else st), tape)
  else if String.eqb (key e) "r" || String.eqb (key e) "R" then
    reset tape st
  else
    match lookup (key e) dirs with
    | Some d =>
        Ret ((if negb (opposite d (dir view)) then setNextDir d st else st), tape)
    | None =>
        if inherited (key e) then Unmodelled else Ret (st, tape)
    end.

(** ** The frame loop *)

(** [while (accRef.current >= tickMs) { step(); accRef.current -= tickMs; }]
    with [tickMs] and [step] those of the closure.  [fuel] bounds the
    number of turns. *)
Fixpoint ticks (fuel : nat) (view : Store) (tape : list Q) (st : Store)
  : res (Store * list Q) :=
  if Qle_bool (inject_Z (tickMs view)) (accRef st) then
    match fuel with
    | O => OutOfFuel
    | S fuel' =>
        let* (st', tape') := step view tape st in
        ticks fuel' view tape' (setAcc (accRef st' - inject_Z (tickMs view))%Q st')
    end
  else Ret (st, tape).

(** A whole number of milliseconds that a double holds exactly. *)
Definition exactMs (q : Q) : bool :=
  Qeq_bool q (inject_Z (Qfloor q))
  && Qle_bool (- inject_Z MAX_EXACT) q && Qle_bool q (inject_Z MAX_EXACT).

(** One call of [loop(ts)]; the registration of the next frame is left
    out.  The source computes [ts - lastRef.current] and [accRef.current +
    dt] in doubles, which round; the model takes both exactly and covers
    the frames where the doubles do too: time stamps, accumulator,
    difference and sum all whole numbers of milliseconds within 2^53.
    Other running frames are [Unmodelled].  A frame of a paused or ended
    game uses neither result. *)
Definition loop (fuel : nat) (view : Store) (ts : Q) (tape : list Q) (st : Store)
  : res (Store * list Q) :=
  let st := if Qeq_bool (lastRef st) 0 then setLast ts st else st in
  let t0 := lastRef st in
  let dt := (ts - t0)%Q in
  let st := setLast ts st in
  if negb (paused view) && negb (gameOver view) then
    if forallb exactMs [ts; t0; dt; accRef st; (accRef st + dt)%Q] then
      let st := setAcc (accRef st + dt)%Q st in
      let st := setAcc (clamp (accRef st) 0 1000) st in
      ticks fuel view tape st
    else Unmodelled
  else Ret (st, tape).

(** ** Vocabulary of the statements *)

(** The game is running: [step] gets past its first line. *)
Definition running (st : Store) : Prop :=
  gameOver st = false /\ paused st = false.

(** The cell one move from [h] in direction [d]. *)
Definition advance (h d : Cell) : Cell :=
  {| x := x h + x d; y := y h + y d |}.

Definition inBounds (c : Cell) : bool :=
  (0 <=? x c) && (x c <? GRID) && (0 <=? y c) && (y c <? GRID).

Definition right : Cell := {| x := 1; y := 0 |}.
Definition left : Cell := {| x := -1; y := 0 |}.

(** [n] invocations of [step], each from the render that follows the one
    before. *)
Fixpoint steps (n : nat) (tape : list Q) (st : Store) : res (Store * list Q) :=
  match n with
  | O => Ret (st, tape)
  | S n' => let* (st', tape') := step st tape st in steps n' tape' st'
  end.

(** The candidate cell [placeFood] builds from two draws. *)
Definition candidate (u v : Q) : Cell :=
  {| x := randInt 0 (GRID - 1) u; y := randInt 0 (GRID - 1) v |}.

(** Some turn of the retry loop is offered a cell off the snake. *)
Definition freeDraw (snake : list Cell) (tape : list Q) : Prop :=
  exists pre u v post,
    tape = (pre ++ u :: v :: post)%list /\
    Nat.Even (List.length pre) /\
    occupied snake (candidate u v) = false.

(** ** Basic facts *)

Lemma same_iff (a b : Cell) : same a b = true <-> a = b.
Proof.
  unfold same. rewrite andb_true_iff, !Z.eqb_eq.
  destruct a as [ax ay], b as [bx by_]; simpl. split.
  - intros [-> ->]. reflexivity.
  - intros E. inversion E. split; reflexivity.
Qed.

Lemma same_sym (a b : Cell) : same a b = same b a.
Proof. unfold same. now rewrite (Z.eqb_sym (x a)), (Z.eqb_sym (y a)). Qed.

Lemma same_false_iff (a b : Cell) : same a b = false <-> a <> b.
Proof.
  rewrite <- not_true_iff_false, same_iff. reflexivity.
Qed.

Lemma some_same_In (l : list Cell) (c : Cell) :
  existsb (fun s => same s c) l = true <-> In c l.
Proof.
  rewrite existsb_exists. split.
  - intros [s [Hin Hs]]. apply same_iff in Hs. now subst.
  - intros Hin. exists c. split; [assumption | now apply same_iff].
Qed.

Lemma occupied_In (l : list Cell) (c : Cell) : occupied l c = true <-> In c l.
Proof. apply some_same_In. Qed.

Lemma occupied_false (l : list Cell) (c : Cell) : occupied l c = false <-> ~ In c l.
Proof. rewrite <- not_true_iff_false, occupied_In. reflexivity. Qed.

Lemma wall_test (c : Cell) :
  (x c <? 0) || (y c <? 0) || (x c >=? GRID) || (y c >=? GRID) = negb (inBounds c).
Proof.
  unfold inBounds, GRID.
  destruct (x c <? 0) eqn:A, (y c <? 0) eqn:B, (x c >=? 24) eqn:C,
    (y c >=? 24) eqn:D, (0 <=? x c) eqn:E, (x c <? 24) eqn:F,
    (0 <=? y c) eqn:G, (y c <? 24) eqn:H; simpl; try reflexivity; lia.
Qed.

(** *** [placeFood] *)

(** Induction two draws at a time, the way [placeFood] consumes its tape. *)
Lemma draws_ind (P : list Q -> Prop) :
  P [] -> (forall u, P [u]) ->
  (forall u v rest, P rest -> P (u :: v :: rest)) ->
  forall tape, P tape.
Proof.
  intros H0 H1 H2 tape.
  enough (P tape /\ forall u, P (u :: tape)) by tauto.
  induction tape as [|v rest [IHa IHb]]; split; auto.
Qed.

Lemma placeFood_turn (snake : list Cell) (u v : Q) (rest : list Q) :
  placeFood snake (u :: v :: rest) =
  if negb (occupied snake (candidate u v)) then Ret (candidate u v, rest)
  else placeFood snake rest.
Proof. reflexivity. Qed.

Lemma placeFood_outcome (snake : list Cell) (tape : list Q) :
  match placeFood snake tape with
  | Ret _ | NoDraw => True
  | _ => False
  end.
Proof.
  induction tape as [|u|u v rest IH] using draws_ind; try exact I.
  rewrite placeFood_turn. destruct (occupied snake (candidate u v)); simpl.
  - exact IH.
  - exact I.
Qed.

Lemma placeFood_free (snake : list Cell) (tape : list Q) (f : Cell) (tape' : list Q) :
  placeFood snake tape = Ret (f, tape') -> ~ In f snake.
Proof.
  induction tape as [|u|u v rest IH] using draws_ind; try discriminate.
  rewrite placeFood_turn.
  destruct (occupied snake (candidate u v)) eqn:O; simpl.
  - exact IH.
  - intros H. inversion H; subst. now apply occupied_false.
Qed.

Lemma Even_two_more (n : nat) : Nat.Even (S (S n)) -> Nat.Even n.
Proof. intros [k Hk]. exists (k - 1)%nat. lia. Qed.

Lemma placeFood_skip (snake : list Cell) (pre tape : list Q) :
  Nat.Even (List.length pre) ->
  (exists f rest, placeFood snake tape = Ret (f, rest)) ->
  exists f rest, placeFood snake (pre ++ tape)%list = Ret (f, rest).
Proof.
  induction pre as [|u|u v pre' IH] using draws_ind; intros Hev Hex.
  - exact Hex.
  - exfalso. destruct Hev as [k Hk]. simpl in Hk. lia.
  - change ((u :: v :: pre') ++ tape)%list with (u :: v :: (pre' ++ tape))%list.
    rewrite placeFood_turn. destruct (occupied snake (candidate u v)); simpl.
    + apply IH; [now apply Even_two_more | exact Hex].
    + eauto.
Qed.

Lemma placeFood_total (snake : list Cell) (tape : list Q) :
  freeDraw snake tape ->
  exists f tape', placeFood snake tape = Ret (f, tape') /\ ~ In f snake.
Proof.
  intros (pre & u & v & post & -> & Hev & Hfree).
  destruct (placeFood_skip snake pre (u :: v :: post) Hev) as (f & rest & E).
  - rewrite placeFood_turn, Hfree. simpl. eauto.
  - exists f, rest. split; [exact E | exact (placeFood_free _ _ _ _ E)].
Qed.

(** *** What one [step] does, branch by branch *)

(** The direction commit: [if (appliedDir !== dir) setDir(appliedDir)]. *)
Definition commit (view st : Store) : Store :=
  if negb (same (appliedDir view) (dir view)) then setDir (appliedDir view) st else st.

Lemma running_flags (view : Store) :
  running view -> gameOver view || paused view = false.
Proof. intros [-> ->]. reflexivity. Qed.

Lemma step_noop (view : Store) (tape : list Q) (st : Store) :
  gameOver view = true \/ paused view = true ->
  step view tape st = Ret (st, tape).
Proof.
  intros H. unfold step.
  replace (gameOver view || paused view) with true; [reflexivity|].
  symmetry. apply orb_true_iff. exact H.
Qed.

Section OneStep.

Variables (view st : Store) (tape : list Q) (h : Cell) (tl : list Cell).
Hypothesis Hrun : running view.
Hypothesis Hsnake : snake st = h :: tl.

Let nh : Cell := advance h (appliedDir view).

Lemma step_wall :
  inBounds nh = false ->
  step view tape st
  = Ret (setSnake (snake st) (endGame (score view) (commit view st)), tape).
Proof.
  intros Hout. unfold step. rewrite (running_flags view Hrun), Hsnake.
  fold (commit view st).
  pose proof (wall_test nh) as W. unfold nh, advance in W. simpl in W.
  cbv zeta. rewrite W. fold (advance h (appliedDir view)). fold nh.
  rewrite Hout. reflexivity.
Qed.

Lemma step_hit :
  inBounds nh = true ->
  existsb (fun s => same s nh) (bodyToCheck (same nh (food view)) (snake st)) = true ->
  step view tape st
  = Ret (setSnake (snake st) (endGame (score view) (commit view st)), tape).
Proof.
  intros Hin Hhit. unfold step. rewrite (running_flags view Hrun), Hsnake.
  fold (commit view st).
  pose proof (wall_test nh) as W. unfold nh, advance in W. simpl in W.
  cbv zeta. rewrite W. fold (advance h (appliedDir view)). fold nh.
  rewrite Hin. simpl negb. cbv iota. rewrite <- Hsnake, Hhit. reflexivity.
Qed.

Lemma step_eat :
  inBounds nh = true ->
  same nh (food view) = true ->
  existsb (fun s => same s nh) (snake st) = false ->
  step view tape st
  = let* (newFood, tape') := placeFood (nh :: snake st) tape in
    Ret (setSnake (nh :: snake st)
           (setFood newFood
              (setTickMs (nextTick (tickMs (commit view st)))
                 (setScore (score view + 1) (commit view st)))), tape').
Proof.
  intros Hin Heat Hfree. unfold step. rewrite (running_flags view Hrun), Hsnake.
  fold (commit view st).
  pose proof (wall_test nh) as W. unfold nh, advance in W. simpl in W.
  cbv zeta. rewrite W. fold (advance h (appliedDir view)). fold nh.
  rewrite Hin. simpl negb. cbv iota. rewrite <- Hsnake, Heat.
  unfold bodyToCheck. rewrite Hfree. reflexivity.
Qed.

Lemma step_move :
  inBounds nh = true ->
  same nh (food view) = false ->
  existsb (fun s => same s nh) (removelast (snake st)) = false ->
  step view tape st
  = Ret (setSnake (removelast (nh :: snake st)) (commit view st), tape).
Proof.
  intros Hin Heat Hfree. unfold step. rewrite (running_flags view Hrun), Hsnake.
  fold (commit view st).
  pose proof (wall_test nh) as W. unfold nh, advance in W. simpl in W.
  cbv zeta. rewrite W. fold (advance h (appliedDir view)). fold nh.
  rewrite Hin. simpl negb. cbv iota. rewrite <- Hsnake, Heat.
  unfold bodyToCheck. rewrite Hfree. reflexivity.
Qed.

End OneStep.

(** *** What the commit and [endGame] leave alone *)

Ltac store_fields :=
  unfold commit, endGame, setSnake, setDir, setNextDir, setFood, setScore, setBest,
    setTickMs, setPaused, setGameOver, setAcc, setLast, setItem;
  repeat match goal with
         | |- context [if ?b then _ else _] => destruct b
         end;
  simpl; try reflexivity.

Lemma commit_fresh_dir (st : Store) : dir (commit st st) = appliedDir st.
Proof.
  unfold commit. destruct (same (appliedDir st) (dir st)) eqn:E; simpl.
  - apply same_iff in E. congruence.
  - reflexivity.
Qed.

Lemma commit_frame (view st : Store) :
  snake (commit view st) = snake st /\ food (commit view st) = food st /\
  score (commit view st) = score st /\ tickMs (commit view st) = tickMs st /\
  best (commit view st) = best st /\ gameOver (commit view st) = gameOver st /\
  paused (commit view st) = paused st /\ nextDir (commit view st) = nextDir st /\
  accRef (commit view st) = accRef st /\ localStorage (commit view st) = localStorage st.
Proof. repeat split; store_fields. Qed.

Lemma nextTick_div (t : Z) : nextTick t = Z.max 55 (t * 98 / 100).
Proof. unfold nextTick, MIN_TICK_MS, SPEEDUP_PER_FOOD. simpl. reflexivity. Qed.

Lemma nextTick_floor (t : Z) : MIN_TICK_MS <= nextTick t.
Proof. unfold nextTick. apply Z.le_max_l. Qed.

Lemma removelast_cons_snoc (c t : Cell) (body : list Cell) :
  removelast (c :: body ++ [t]) = c :: body.
Proof. apply (removelast_last (c :: body) t). Qed.

(** Whether a run of [step] ended with the game over. *)
Definition endsGame (r : res (Store * list Q)) : bool :=
  match r with
  | Ret (st', _) => gameOver st'
  | _ => false
  end.

(** ** Properties of [step] *)

(** C8: [step] is a no-op while paused or game over: any number of
    invocations, each from a fresh render, returns the store it was given,
    field for field, and takes no random draw. *)
Theorem step_idempotent_paused_or_over (st : Store) (tape : list Q) (n : nat) :
  paused st = true \/ gameOver st = true ->
  step st tape st = Ret (st, tape) /\ steps n tape st = Ret (st, tape).
Proof.
  intros H. assert (E : step st tape st = Ret (st, tape)) by (apply step_noop; tauto).
  split; [exact E|].
  induction n as [|n IH]; simpl; [reflexivity|].
  rewrite E. simpl. exact IH.
Qed.

(** A paused game, stepped three times. *)
Lemma step_idempotent_paused_or_over_witness :
  step (setPaused true (initialStore {| x := 13; y := 12 |} 0 None)) [0; 0]%Q
       (setPaused true (initialStore {| x := 13; y := 12 |} 0 None))
  = Ret (setPaused true (initialStore {| x := 13; y := 12 |} 0 None), [0; 0]%Q) /\
  steps 3 [0; 0]%Q (setPaused true (initialStore {| x := 13; y := 12 |} 0 None))
  = Ret (setPaused true (initialStore {| x := 13; y := 12 |} 0 None), [0; 0]%Q).
Proof.
  apply (step_idempotent_paused_or_over
           (setPaused true (initialStore {| x := 13; y := 12 |} 0 None)) [0; 0]%Q 3).
  left. reflexivity.
Defined.

(** C3, amended: in a running game, when the head, moved by the direction
    the tick commits (the pending direction, unless that is the opposite of
    the current one), leaves the 24 by 24 board, one [step] sets [gameOver]
    and returns the snake, the food and the score it found. *)
Theorem step_wall_collision (st : Store) (tape : list Q) (h : Cell) (tl : list Cell) :
  running st ->
  snake st = h :: tl ->
  inBounds (advance h (appliedDir st)) = false ->
  exists st',
    step st tape st = Ret (st', tape) /\
    gameOver st' = true /\
    snake st' = snake st /\ food st' = food st /\ score st' = score st.
Proof.
  intros Hrun Hs Hout. eexists. split.
  - apply (step_wall st st tape h tl Hrun Hs Hout).
  - destruct (commit_frame st st) as (_ & Cf & Csc & _).
    split; [reflexivity|]. split; [reflexivity|]. split; [exact Cf | exact Csc].
Qed.

Definition wallStore : Store :=
  setSnake [ {| x := 23; y := 12 |}; {| x := 22; y := 12 |}; {| x := 21; y := 12 |} ]
    (initialStore {| x := 5; y := 5 |} 0 None).

(** The scenario of C3: head at (23,12) moving (1,0). *)
Lemma step_wall_collision_witness :
  exists st',
    step wallStore [] wallStore = Ret (st', []) /\
    gameOver st' = true /\
    snake st' = snake wallStore /\ food st' = food wallStore /\
    score st' = score wallStore.
Proof.
  apply (step_wall_collision wallStore [] {| x := 23; y := 12 |}
           [ {| x := 22; y := 12 |}; {| x := 21; y := 12 |} ]).
  - split; reflexivity.
  - reflexivity.
  - reflexivity.
Defined.

(** The same head and direction with a turn down pending. *)
Definition wallTurn : Store := setNextDir {| x := 0; y := 1 |} wallStore.

(** C3 as worded fails: with the head at (23,12) and the current direction
    (1,0), the head plus the current direction is off the board; but the
    tick first commits the pending direction (0,1), so the snake turns to
    (23,13) and the game goes on.  With the same head and direction in a
    paused game, the step does nothing at all. *)
Lemma step_turn_at_wall_goes_on :
  running wallTurn /\
  snake wallTurn
  = [ {| x := 23; y := 12 |}; {| x := 22; y := 12 |}; {| x := 21; y := 12 |} ] /\
  dir wallTurn = {| x := 1; y := 0 |} /\
  inBounds (advance {| x := 23; y := 12 |} (dir wallTurn)) = false /\
  (exists st',
     step wallTurn [] wallTurn = Ret (st', []) /\
     gameOver st' = false /\
     snake st'
     = [ {| x := 23; y := 13 |}; {| x := 23; y := 12 |}; {| x := 22; y := 12 |} ]) /\
  inBounds (advance {| x := 23; y := 12 |} (dir (setPaused true wallStore))) = false /\
  step (setPaused true wallStore) [] (setPaused true wallStore)
  = Ret (setPaused true wallStore, []) /\
  gameOver (setPaused true wallStore) = false.
Proof.
  split; [split; reflexivity|].
  do 3 (split; [reflexivity|]).
  split; [eexists; split; [vm_compute; reflexivity|]; split; reflexivity|].
  split; [reflexivity|]. split; reflexivity.
Qed.



(** C2: in a running game whose next head is on the board, [step] ends the
    game on self collision exactly when the next head is a cell of the
    whole snake (eating move) or of the snake without its last cell (any
    other move), and then returns the snake as it was; so a move that does
    not eat and lands on the tail cell alone goes through. *)
Theorem step_self_collision_segment (st : Store) (tape : list Q) (h : Cell) (tl : list Cell) :
  running st ->
  snake st = h :: tl ->
  let nh := advance h (appliedDir st) in
  inBounds nh = true ->
  (endsGame (step st tape st) = true <->
   In nh (if same nh (food st) then snake st else removelast (snake st))) /\
  (endsGame (step st tape st) = true ->
   exists st', step st tape st = Ret (st', tape) /\ snake st' = snake st) /\
  (forall body,
     same nh (food st) = false ->
     snake st = (body ++ [nh])%list ->
     ~ In nh body ->
     exists st',
       step st tape st = Ret (st', tape) /\
       gameOver st' = false /\ snake st' = nh :: body).
Proof.
  intros Hrun Hs nh Hin.
  assert (Hhit : existsb (fun s => same s nh) (bodyToCheck (same nh (food st)) (snake st)) = true
                 -> step st tape st
                    = Ret (setSnake (snake st) (endGame (score st) (commit st st)), tape))
    by (apply (step_hit st st tape h tl Hrun Hs Hin)).
  assert (Hfree : existsb (fun s => same s nh) (bodyToCheck (same nh (food st)) (snake st)) = false
                  -> endsGame (step st tape st) = false).
  { intros F. destruct (same nh (food st)) eqn:Heat; unfold bodyToCheck in F.
    - rewrite (step_eat st st tape h tl Hrun Hs Hin Heat F).
      destruct (placeFood _ tape) as [[f' t']| | | |]; simpl; try reflexivity.
      destruct Hrun as [Hg _]. rewrite <- Hg. store_fields.
    - rewrite (step_move st st tape h tl Hrun Hs Hin Heat F). simpl.
      destruct Hrun as [Hg _]. rewrite <- Hg. store_fields. }
  split; [|split].
  - rewrite <- some_same_In. fold (bodyToCheck (same nh (food st)) (snake st)).
    destruct (existsb (fun s => same s nh) (bodyToCheck (same nh (food st)) (snake st))) eqn:E.
    + rewrite (Hhit eq_refl). simpl. tauto.
    + rewrite (Hfree eq_refl). tauto.
  - intros Hend.
    destruct (existsb (fun s => same s nh) (bodyToCheck (same nh (food st)) (snake st))) eqn:E.
    + eexists. split; [apply (Hhit eq_refl) | reflexivity].
    + rewrite (Hfree eq_refl) in Hend. discriminate.
  - intros body Heat Hbody Hnot.
    assert (F : existsb (fun s => same s nh) (removelast (snake st)) = false).
    { rewrite Hbody, removelast_last. apply not_true_iff_false.
      rewrite some_same_In. exact Hnot. }
    rewrite (step_move st st tape h tl Hrun Hs Hin Heat F).
    eexists. split; [reflexivity|]. split.
    + destruct Hrun as [Hg _]. rewrite <- Hg. store_fields.
    + cbn [snake setSnake]. rewrite Hbody. apply removelast_cons_snoc.
Qed.

Definition tailChase : Store :=
  setSnake [ {| x := 5; y := 5 |}; {| x := 5; y := 6 |};
             {| x := 6; y := 6 |}; {| x := 6; y := 5 |} ]
    (initialStore {| x := 0; y := 0 |} 0 None).

(** A snake of four cells in a square, heading right onto its own tail. *)
Lemma step_self_collision_segment_witness :
  exists st',
    step tailChase [] tailChase = Ret (st', []) /\
    gameOver st' = false /\
    snake st' = [ {| x := 6; y := 5 |}; {| x := 5; y := 5 |};
                  {| x := 5; y := 6 |}; {| x := 6; y := 6 |} ].
Proof.
  apply (proj2 (proj2 (step_self_collision_segment tailChase [] {| x := 5; y := 5 |}
           [ {| x := 5; y := 6 |}; {| x := 6; y := 6 |}; {| x := 6; y := 5 |} ]
           (conj eq_refl eq_refl) eq_refl eq_refl))
           [ {| x := 5; y := 5 |}; {| x := 5; y := 6 |}; {| x := 6; y := 6 |} ]).
  - reflexivity.
  - reflexivity.
  - intros H. repeat (destruct H as [H|H]; [discriminate H|]). exact H.
Defined.

(** *** Eating *)

Definition eatStore : Store := initialStore {| x := 13; y := 12 |} 0 None.

(** At the first food of a game the interval goes from 120 to 117, which is
    not 120 scaled by 0.98 (117.6): the scaled value is not what is
    stored. *)
Lemma step_eat_tick_not_scaled_value :
  exists st' tape',
    step eatStore [0; 0]%Q eatStore = Ret (st', tape') /\
    same (advance {| x := 12; y := 12 |} (appliedDir eatStore)) (food eatStore) = true /\
    score st' = score eatStore + 1 /\
    tickMs st' = 117 /\
    ~ (inject_Z (tickMs st')
       == Qmax (inject_Z MIN_TICK_MS) (inject_Z (tickMs eatStore) * SPEEDUP_PER_FOOD))%Q.
Proof.
  eexists. eexists. split; [vm_compute; reflexivity|].
  repeat split. intros E. vm_compute in E. discriminate E.
Qed.

(** C1, amended: a move of a running game onto the food cell, completed
    as soon as the draws offer a free cell, sets the score to the previous
    score plus 1 and the tick interval to
    max(55, floor(previous interval * 0.98)): a whole number of
    milliseconds, never below 55. *)
Theorem step_eat_score_and_tick (st : Store) (tape : list Q) (h : Cell) (tl : list Cell) :
  running st ->
  snake st = h :: tl ->
  let nh := advance h (appliedDir st) in
  inBounds nh = true ->
  same nh (food st) = true ->
  ~ In nh (snake st) ->
  freeDraw (nh :: snake st) tape ->
  exists st' tape',
    step st tape st = Ret (st', tape') /\
    score st' = score st + 1 /\
    tickMs st' = Z.max MIN_TICK_MS (Qfloor (inject_Z (tickMs st) * SPEEDUP_PER_FOOD)) /\
    tickMs st' = Z.max 55 (tickMs st * 98 / 100) /\
    MIN_TICK_MS <= tickMs st'.
Proof.
  intros Hrun Hs nh Hin Heat Hnot Hfree.
  assert (F : existsb (fun s => same s nh) (snake st) = false).
  { apply not_true_iff_false. rewrite some_same_In. exact Hnot. }
  pose proof (step_eat st st tape h tl Hrun Hs Hin Heat F) as E.
  destruct (commit_frame st st) as (_ & _ & _ & Ht & _).
  destruct (placeFood_total _ _ Hfree) as (f & t & P & _).
  rewrite E. fold nh. rewrite P. simpl bind.
  eexists. eexists. split; [reflexivity|].
  cbn [score tickMs setSnake setFood setTickMs setScore].
  rewrite Ht. split; [reflexivity|]. split; [reflexivity|].
  split; [apply nextTick_div | apply nextTick_floor].
Qed.

Lemma step_eat_score_and_tick_witness :
  exists st' tape',
    step eatStore [0; 0]%Q eatStore = Ret (st', tape') /\
    score st' = score eatStore + 1 /\
    tickMs st' = Z.max MIN_TICK_MS (Qfloor (inject_Z (tickMs eatStore) * SPEEDUP_PER_FOOD)) /\
    tickMs st' = Z.max 55 (tickMs eatStore * 98 / 100) /\
    MIN_TICK_MS <= tickMs st'.
Proof.
  apply (step_eat_score_and_tick eatStore [0; 0]%Q {| x := 12; y := 12 |}
           [ {| x := 11; y := 12 |}; {| x := 10; y := 12 |} ]).
  - split; reflexivity.
  - reflexivity.
  - reflexivity.
  - reflexivity.
  - intros H. repeat (destruct H as [H|H]; [discriminate H|]). exact H.
  - exists [], 0%Q, 0%Q, []. repeat split. exists 0%nat. reflexivity.
Defined.

(** C4: when a running game eats, the move being completed as soon as the
    draws offer a free cell, the food cell [step] stores is not a cell of
    the snake it stores, which is the old snake with the new head in front
    and its tail kept. *)
Theorem step_eat_food_off_snake (st : Store) (tape : list Q) (h : Cell) (tl : list Cell) :
  running st ->
  snake st = h :: tl ->
  let nh := advance h (appliedDir st) in
  inBounds nh = true ->
  same nh (food st) = true ->
  ~ In nh (snake st) ->
  freeDraw (nh :: snake st) tape ->
  exists st' tape',
    step st tape st = Ret (st', tape') /\
    snake st' = nh :: snake st /\
    ~ In (food st') (snake st') /\
    forall c, In c (snake st') -> same c (food st') = false.
Proof.
  intros Hrun Hs nh Hin Heat Hnot Hfree.
  assert (F : existsb (fun s => same s nh) (snake st) = false).
  { apply not_true_iff_false. rewrite some_same_In. exact Hnot. }
  pose proof (step_eat st st tape h tl Hrun Hs Hin Heat F) as E.
  destruct (placeFood_total _ _ Hfree) as (f & t & P & Off).
  rewrite E. fold nh. rewrite P. simpl bind.
  eexists. eexists. split; [reflexivity|].
  cbn [snake food setSnake setFood].
  split; [reflexivity|]. split; [exact Off|].
  intros c Hc. apply same_false_iff. intros ->. exact (Off Hc).
Qed.

(** The first candidate (12,12) is on the snake and is passed over; the
    second, (0,0), is taken. *)
Lemma step_eat_food_off_snake_witness :
  exists st' tape',
    step eatStore [1 # 2; 1 # 2; 0; 0]%Q eatStore = Ret (st', tape') /\
    snake st' = {| x := 13; y := 12 |} :: snake eatStore /\
    ~ In (food st') (snake st') /\
    forall c, In c (snake st') -> same c (food st') = false.
Proof.
  apply (step_eat_food_off_snake eatStore [1 # 2; 1 # 2; 0; 0]%Q {| x := 12; y := 12 |}
           [ {| x := 11; y := 12 |}; {| x := 10; y := 12 |} ]).
  - split; reflexivity.
  - reflexivity.
  - reflexivity.
  - reflexivity.
  - intros H. repeat (destruct H as [H|H]; [discriminate H|]). exact H.
  - exists [1 # 2; 1 # 2]%Q, 0%Q, 0%Q, []. repeat split. exists 1%nat. reflexivity.
Defined.

(** The hypothesis [freeDraw] is exactly what it takes for [placeFood] to
    return. *)
Lemma placeFood_returns_freeDraw (snake : list Cell) (tape : list Q) (f : Cell) (tape' : list Q) :
  placeFood snake tape = Ret (f, tape') -> freeDraw snake tape.
Proof.
  induction tape as [|u|u v rest IH] using draws_ind; try discriminate.
  rewrite placeFood_turn. destruct (occupied snake (candidate u v)) eqn:O; simpl.
  - intros H. destruct (IH H) as (pre & u' & v' & post & -> & Hev & Hfree).
    exists (u :: v :: pre), u', v', post. repeat split; try assumption.
    destruct Hev as [k Hk]. exists (S k). simpl. lia.
  - intros _. exists [], u, v, rest. repeat split; try assumption.
    exists 0%nat. reflexivity.
Qed.

(** *** Reversal *)

Lemma opposite_left_right : opposite left right = true.
Proof. reflexivity. Qed.

Lemma appliedDir_not_reverse (st : Store) :
  dir st = right -> appliedDir st <> left.
Proof.
  intros Hd. unfold appliedDir. rewrite Hd.
  destruct (opposite (nextDir st) right) eqn:O; simpl.
  - discriminate.
  - intros E. rewrite E in O. discriminate O.
Qed.

Lemma step_dir (st : Store) (tape : list Q) (st' : Store) (tape' : list Q) :
  step st tape st = Ret (st', tape') ->
  dir st' = dir st \/ dir st' = appliedDir st.
Proof.
  unfold step. destruct (gameOver st || paused st).
  - intros H. inversion H. left. reflexivity.
  - fold (commit st st). destruct (snake st) as [|h tl]; [discriminate|].
    cbv zeta.
    repeat match goal with
           | |- context [if ?b then _ else _] => destruct b
           end;
      try (intros H; inversion H; right; cbn; apply commit_fresh_dir).
    destruct (placeFood _ tape) as [[f t]| | | |]; simpl; try discriminate.
    intros H; inversion H; right; cbn; apply commit_fresh_dir.
Qed.

Lemma step_head (st : Store) (tape : list Q) (st' : Store) (tape' : list Q)
      (h : Cell) (tl : list Cell) :
  step st tape st = Ret (st', tape') ->
  snake st = h :: tl ->
  exists tl', snake st' = h :: tl' \/ snake st' = advance h (appliedDir st) :: tl'.
Proof.
  intros R Hs. destruct (gameOver st || paused st) eqn:Fl.
  - rewrite step_noop in R.
    + inversion R; subst. exists tl. left. exact Hs.
    + apply orb_true_iff in Fl. exact Fl.
  - assert (Hrun : running st).
    { apply orb_false_iff in Fl. exact Fl. }
    destruct (inBounds (advance h (appliedDir st))) eqn:B.
    2:{ rewrite (step_wall st st tape h tl Hrun Hs B) in R. inversion R.
        exists tl. left. exact Hs. }
    destruct (existsb (fun s => same s (advance h (appliedDir st)))
                (bodyToCheck (same (advance h (appliedDir st)) (food st)) (snake st))) eqn:X.
    { rewrite (step_hit st st tape h tl Hrun Hs B X) in R. inversion R.
      exists tl. left. exact Hs. }
    destruct (same (advance h (appliedDir st)) (food st)) eqn:Heat; unfold bodyToCheck in X.
    + rewrite (step_eat st st tape h tl Hrun Hs B Heat X) in R.
      destruct (placeFood _ tape) as [[f t]| | | |]; simpl in R; try discriminate R.
      inversion R. exists (snake st). right. reflexivity.
    + rewrite (step_move st st tape h tl Hrun Hs B Heat X) in R. inversion R.
      cbn [snake setSnake]. rewrite Hs.
      exists (removelast (h :: tl)). right. reflexivity.
Qed.

(** C6: with the snake moving right, a key whose direction is (-1,0) is
    taken without buffering it ([nextDir] stays as it was), and the [step]
    that follows never commits (-1,0) nor moves the head one cell to the
    left. *)
Theorem reverse_intent_never_moves_left (st : Store) (e : KeyboardEvent) (tape : list Q) :
  dir st = right ->
  lookup (key e) dirs = Some left ->
  exists st1,
    onKeyDown st e tape st = Ret (st1, tape) /\
    nextDir st1 = nextDir st /\ dir st1 = right /\ snake st1 = snake st /\
    forall st2 tape2,
      step st1 tape st1 = Ret (st2, tape2) ->
      dir st2 <> left /\
      forall h tl h2 tl2,
        snake st = h :: tl -> snake st2 = h2 :: tl2 -> h2 <> advance h left.
Proof.
  intros Hd Hk.
  assert (Hr : String.eqb (key e) "r" || String.eqb (key e) "R" = false).
  { destruct (String.eqb (key e) "r") eqn:A.
    - apply String.eqb_eq in A. rewrite A in Hk. discriminate Hk.
    - destruct (String.eqb (key e) "R") eqn:B; [|reflexivity].
      apply String.eqb_eq in B. rewrite B in Hk. discriminate Hk. }
  assert (K : exists st1, onKeyDown st e tape st = Ret (st1, tape) /\
                nextDir st1 = nextDir st /\ dir st1 = dir st /\ snake st1 = snake st).
  { unfold onKeyDown. destruct (String.eqb (code e) "Space").
    - eexists. split; [reflexivity|]. repeat split; store_fields.
    - rewrite Hr, Hk, Hd, opposite_left_right. simpl. eauto. }
  destruct K as (st1 & K & Hn & Hd1 & Hs1). rewrite Hd in Hd1.
  exists st1. repeat split; try assumption.
  - destruct (step_dir st1 tape st2 tape2 H) as [E|E]; rewrite E.
    + rewrite Hd1. discriminate.
    + apply appliedDir_not_reverse. exact Hd1.
  - intros h tl h2 tl2 Hs Hs2. rewrite <- Hs1 in Hs.
    destruct (step_head st1 tape st2 tape2 h tl H Hs) as [tl' [E|E]];
      rewrite Hs2 in E; inversion E; subst h2.
    + unfold advance, left. destruct h as [hx hy]. simpl. intros C. inversion C. lia.
    + pose proof (appliedDir_not_reverse st1 Hd1) as N.
      intros C. apply N. unfold advance in C. inversion C.
      destruct (appliedDir st1) as [dx dy]. simpl in *. unfold left. f_equal; lia.
Qed.

(** ArrowLeft on the initial store, then one step: the snake has moved
    right. *)
Lemma reverse_intent_never_moves_left_witness :
  exists st1,
    onKeyDown eatStore (mkKey "ArrowLeft" "ArrowLeft") [0; 0]%Q eatStore
    = Ret (st1, [0; 0]%Q) /\
    nextDir st1 = nextDir eatStore /\ dir st1 = right /\ snake st1 = snake eatStore /\
    forall st2 tape2,
      step st1 [0; 0]%Q st1 = Ret (st2, tape2) ->
      dir st2 <> left /\
      forall h tl h2 tl2,
        snake eatStore = h :: tl -> snake st2 = h2 :: tl2 -> h2 <> advance h left.
Proof.
  apply (reverse_intent_never_moves_left eatStore (mkKey "ArrowLeft" "ArrowLeft") [0; 0]%Q).
  - reflexivity.
  - reflexivity.
Defined.

(** ** The frame loop *)

(** [step] touches neither ref, keeps a snake non-empty, and fails only by
    running out of draws or on an empty snake. *)
Lemma step_outcome (view : Store) (tape : list Q) (st : Store) :
  snake st <> [] ->
  match step view tape st with
  | Ret (st', _) => accRef st' = accRef st /\ snake st' <> []
  | NoDraw => True
  | _ => False
  end.
Proof.
  intros Hne. unfold step. destruct (gameOver view || paused view).
  - split; [reflexivity | exact Hne].
  - fold (commit view st). destruct (snake st) as [|h tl] eqn:Hs; [congruence|].
    destruct (commit_frame view st) as (_ & _ & _ & _ & _ & _ & _ & _ & Ha & _).
    cbv zeta.
    repeat match goal with
           | |- context [if ?b then _ else _] => destruct b
           end;
      try (split; [cbn; exact Ha | cbn; discriminate]).
    match goal with
    | |- context [placeFood ?s tape] => pose proof (placeFood_outcome s tape) as P
    end.
    destruct (placeFood _ tape) as [[f t]| | | |]; simpl; try exact P.
    split; [exact Ha | discriminate].
Qed.

Lemma inject_nat_succ (n : nat) :
  (inject_Z (Z.of_nat (S n)) == inject_Z (Z.of_nat n) + 1)%Q.
Proof. rewrite Nat2Z.inj_succ. unfold Z.succ. rewrite inject_Z_plus. reflexivity. Qed.

(** The body of the [while] loop, [n] times in a row. *)
Fixpoint tickTimes (n : nat) (view : Store) (tape : list Q) (st : Store)
  : res (Store * list Q) :=
  match n with
  | O => Ret (st, tape)
  | S n' =>
      let* (st', tape') := step view tape st in
      tickTimes n' view tape' (setAcc (accRef st' - inject_Z (tickMs view))%Q st')
  end.

Lemma step_accRef (view : Store) (tape : list Q) (st st' : Store) (tape' : list Q) :
  step view tape st = Ret (st', tape') -> accRef st' = accRef st.
Proof.
  intros R. destruct (snake st) as [|h tl] eqn:Hs.
  - unfold step in R. rewrite Hs in R.
    destruct (gameOver view || paused view); [|discriminate R].
    inversion R. reflexivity.
  - pose proof (step_outcome view tape st) as O. rewrite R in O.
    apply O. rewrite Hs. discriminate.
Qed.

(** An accumulator that holds [n] whole intervals and a rest makes the
    [while] loop run its body [n] times. *)
Lemma ticks_tickTimes (view : Store) (n : nat) :
  0 < tickMs view ->
  forall (fuel : nat) (tape : list Q) (st : Store),
  (n <= fuel)%nat ->
  (inject_Z (Z.of_nat n) * inject_Z (tickMs view) <= accRef st)%Q ->
  (accRef st < (inject_Z (Z.of_nat n) + 1) * inject_Z (tickMs view))%Q ->
  ticks fuel view tape st = tickTimes n view tape st.
Proof.
  intros HT.
  assert (HTq : (0 < inject_Z (tickMs view))%Q).
  { change 0%Q with (inject_Z 0). rewrite <- Zlt_Qlt. exact HT. }
  induction n as [|n IH]; intros fuel tape st Hf Lo Hi.
  - change (inject_Z (Z.of_nat 0)) with 0%Q in Hi.
    destruct fuel; simpl ticks;
      destruct (Qle_bool (inject_Z (tickMs view)) (accRef st)) eqn:G;
      try reflexivity; apply Qle_bool_iff in G; lra.
  - pose proof (inject_nat_succ n) as Sn.
    assert (Nn : (0 <= inject_Z (Z.of_nat n))%Q).
    { change 0%Q with (inject_Z 0). rewrite <- Zle_Qle. lia. }
    assert (Pn : (0 <= inject_Z (Z.of_nat n) * inject_Z (tickMs view))%Q).
    { apply Qmult_le_0_compat; [exact Nn | lra]. }
    rewrite Sn in Lo, Hi.
    destruct fuel as [|fuel]; [lia|]. simpl ticks. simpl tickTimes.
    assert (G : Qle_bool (inject_Z (tickMs view)) (accRef st) = true).
    { apply Qle_bool_iff. lra. }
    rewrite G.
    destruct (step view tape st) as [[st1 tape1]| | | |] eqn:R; try reflexivity.
    simpl bind. apply IH; [lia | |];
      cbn [accRef setAcc]; rewrite (step_accRef _ _ _ _ _ R); lra.
Qed.

(** [n] bodies in a row subtract [n] intervals of the closure, whatever
    [step] did to the live interval in between. *)
Lemma tickTimes_outcome (view : Store) (n : nat) :
  forall (tape : list Q) (st : Store),
  snake st <> [] ->
  match tickTimes n view tape st with
  | Ret (st', _) =>
      (accRef st' == accRef st - inject_Z (Z.of_nat n) * inject_Z (tickMs view))%Q
  | NoDraw => True
  | _ => False
  end.
Proof.
  induction n as [|n IH]; intros tape st Hne.
  - cbn [tickTimes]. cbv beta iota. change (inject_Z (Z.of_nat 0)) with 0%Q. ring.
  - simpl tickTimes.
    pose proof (step_outcome view tape st Hne) as O.
    destruct (step view tape st) as [[st1 tape1]| | | |]; simpl bind; try exact O.
    destruct O as [Ha Hne1].
    specialize (IH tape1 (setAcc (accRef st1 - inject_Z (tickMs view))%Q st1) Hne1).
    revert IH.
    destruct (tickTimes n view tape1 _) as [[st2 tape2]| | | |]; intros IH; try exact IH.
    cbn [accRef setAcc] in IH. rewrite IH, (inject_nat_succ n), Ha. ring.
Qed.

(** A non-negative amount of time holds some number of whole intervals and
    a rest. *)
Lemma whole_intervals (T : Z) (a : Q) :
  0 < T -> (0 <= a)%Q ->
  exists n : nat,
    (inject_Z (Z.of_nat n) * inject_Z T <= a)%Q /\
    (a < (inject_Z (Z.of_nat n) + 1) * inject_Z T)%Q.
Proof.
  intros HT Ha.
  assert (HTq : (0 < inject_Z T)%Q).
  { change 0%Q with (inject_Z 0). rewrite <- Zlt_Qlt. exact HT. }
  assert (E : (a == a / inject_Z T * inject_Z T)%Q) by (field; lra).
  assert (Hq : (0 <= a / inject_Z T)%Q).
  { apply Qle_shift_div_l; [exact HTq | lra]. }
  assert (Hk : 0 <= Qfloor (a / inject_Z T)).
  { rewrite <- (Qfloor_Z 0). apply Qfloor_resp_le. exact Hq. }
  exists (Z.to_nat (Qfloor (a / inject_Z T))). rewrite Z2Nat.id by exact Hk.
  pose proof (Qfloor_le (a / inject_Z T)) as Lo.
  pose proof (Qlt_floor (a / inject_Z T)) as Hi.
  rewrite inject_Z_plus in Hi. change (inject_Z 1) with 1%Q in Hi.
  split.
  - apply Qle_trans with (a / inject_Z T * inject_Z T)%Q.
    + apply Qmult_le_compat_r; [exact Lo | lra].
    + rewrite <- E. apply Qle_refl.
  - apply Qle_lt_trans with (a / inject_Z T * inject_Z T)%Q.
    + rewrite <- E. apply Qle_refl.
    + apply Qmult_lt_compat_r; [exact HTq | exact Hi].
Qed.

(** The [while] loop runs its body once per whole interval of the closure
    that the accumulator holds at its entry. *)
Lemma ticks_whole_intervals (fuel : nat) (view : Store) (tape : list Q) (st : Store) :
  0 < tickMs view ->
  (0 <= accRef st)%Q ->
  (accRef st < inject_Z (Z.of_nat fuel) * inject_Z (tickMs view))%Q ->
  exists n : nat,
    (inject_Z (Z.of_nat n) * inject_Z (tickMs view) <= accRef st)%Q /\
    (accRef st < (inject_Z (Z.of_nat n) + 1) * inject_Z (tickMs view))%Q /\
    ticks fuel view tape st = tickTimes n view tape st.
Proof.
  intros HT H0 Hlt.
  destruct (whole_intervals (tickMs view) (accRef st) HT H0) as (n & Lo & Hi).
  exists n. split; [exact Lo|]. split; [exact Hi|].
  apply ticks_tickTimes; try assumption.
  assert (L : Z.of_nat n * tickMs view < Z.of_nat fuel * tickMs view).
  { rewrite Zlt_Qlt, !inject_Z_mult. lra. }
  nia.
Qed.

Lemma clamp_bounds (n a b : Q) : (a <= b)%Q -> (a <= clamp n a b)%Q /\ (clamp n a b <= b)%Q.
Proof.
  intros Hab. unfold clamp. split.
  - apply Q.le_max_l.
  - apply Q.max_lub; [exact Hab | apply Q.le_min_l].
Qed.

Definition slowFrame : Store := setLast 1000 eatStore.

(** A frame 237 ms after the last one, with the food right ahead: the one
    tick that runs eats and brings the live interval down to 117 ms; the
    loop then stops with 117 ms in the accumulator, which is not below
    the live interval, and the game neither paused nor over. *)
Lemma loop_stops_above_live_interval :
  exists st' tape',
    loop 10 eatStore 1237 [0; 0]%Q slowFrame = Ret (st', tape') /\
    snake st' = [ {| x := 13; y := 12 |}; {| x := 12; y := 12 |};
                  {| x := 11; y := 12 |}; {| x := 10; y := 12 |} ] /\
    tickMs eatStore = 120 /\ tickMs st' = 117 /\
    paused st' = false /\ gameOver st' = false /\
    (accRef st' == 117)%Q /\
    ~ (accRef st' < inject_Z (tickMs st'))%Q.
Proof.
  eexists. eexists. split; [vm_compute; reflexivity|].
  repeat split. intros C. vm_compute in C. discriminate C.
Qed.

(** C7, amended: the tick loop of a frame tests the accumulator against,
    and subtracts from it, the tick interval of the closure the loop
    belongs to (that of the render that created it), in every turn.
    Entered with [acc] in the accumulator, it runs its body exactly [n]
    times, [n] being the number of whole closure intervals in [acc], and
    leaves [acc - n * tickMs view] with [0 <= acc - n * tickMs view <
    tickMs view], whatever the ticks do to the live interval meanwhile.
    The loop ends within [fuel] turns as soon as [fuel] intervals exceed
    [acc]; it fails only when [placeFood] runs out of draws. *)
Theorem ticks_use_closure_interval (fuel : nat) (view : Store)
        (tape : list Q) (st : Store) :
  0 < tickMs view ->
  snake st <> [] ->
  (0 <= accRef st)%Q ->
  (accRef st < inject_Z (Z.of_nat fuel) * inject_Z (tickMs view))%Q ->
  exists n : nat,
    (inject_Z (Z.of_nat n) * inject_Z (tickMs view) <= accRef st)%Q /\
    (accRef st < (inject_Z (Z.of_nat n) + 1) * inject_Z (tickMs view))%Q /\
    ticks fuel view tape st = tickTimes n view tape st /\
    match ticks fuel view tape st with
    | Ret (st', _) =>
        (accRef st' == accRef st - inject_Z (Z.of_nat n) * inject_Z (tickMs view))%Q /\
        (0 <= accRef st')%Q /\ (accRef st' < inject_Z (tickMs view))%Q
    | NoDraw => True
    | _ => False
    end.
Proof.
  intros HT Hne H0 Hlt.
  destruct (ticks_whole_intervals fuel view tape st HT H0 Hlt) as (n & Lo & Hi & E).
  exists n. split; [exact Lo|]. split; [exact Hi|]. split; [exact E|].
  rewrite E. pose proof (tickTimes_outcome view n tape st Hne) as O.
  destruct (tickTimes n view tape st) as [[st' tape']| | | |]; try exact O.
  split; [exact O|]. split; lra.
Qed.

(** 237 ms in the accumulator at 120 ms a tick, with the food right ahead. *)
Lemma ticks_use_closure_interval_witness :
  exists n : nat,
    (inject_Z (Z.of_nat n) * inject_Z (tickMs eatStore)
     <= accRef (setAcc 237 eatStore))%Q /\
    (accRef (setAcc 237 eatStore)
     < (inject_Z (Z.of_nat n) + 1) * inject_Z (tickMs eatStore))%Q /\
    ticks 10 eatStore [0; 0]%Q (setAcc 237 eatStore)
    = tickTimes n eatStore [0; 0]%Q (setAcc 237 eatStore) /\
    match ticks 10 eatStore [0; 0]%Q (setAcc 237 eatStore) with
    | Ret (st', _) =>
        (accRef st' == accRef (setAcc 237 eatStore)
                       - inject_Z (Z.of_nat n) * inject_Z (tickMs eatStore))%Q /\
        (0 <= accRef st')%Q /\ (accRef st' < inject_Z (tickMs eatStore))%Q
    | NoDraw => True
    | _ => False
    end.
Proof.
  apply (ticks_use_closure_interval 10 eatStore [0; 0]%Q (setAcc 237 eatStore)).
  - reflexivity.
  - discriminate.
  - discriminate.
  - reflexivity.
Defined.

(** ** The best score and its stored form *)

(** Every character of the string satisfies [p]. *)
Fixpoint allChars (p : ascii -> bool) (s : string) : bool :=
  match s with
  | EmptyString => true
  | String c r => p c && allChars p r
  end.

Definition isDigit (c : ascii) : bool :=
  let n := nat_of_ascii c in ((48 <=? n) && (n <=? 57))%nat.

Lemma digit_not_space (c : ascii) : isDigit c = true -> isWhiteSpace c = false.
Proof.
  unfold isDigit, isWhiteSpace. cbv zeta. intros H.
  apply andb_true_iff in H. destruct H as [A B].
  apply Nat.leb_le in A. apply Nat.leb_le in B.
  apply orb_false_iff. split.
  - apply andb_false_iff. right. apply Nat.leb_gt. lia.
  - apply Nat.eqb_neq. lia.
Qed.

Lemma trimEnd_digits (s : string) : allChars isDigit s = true -> trimEnd s = s.
Proof.
  induction s as [|c r IH]; simpl; [reflexivity|].
  intros H. apply andb_true_iff in H. destruct H as [Hc Hr].
  rewrite (IH Hr). destruct r; [|reflexivity].
  rewrite (digit_not_space c Hc). reflexivity.
Qed.

Lemma trimStart_digits (s : string) : allChars isDigit s = true -> trimStart s = s.
Proof.
  destruct s as [|c r]; simpl; [reflexivity|].
  intros H. apply andb_true_iff in H. destruct H as [Hc _].
  rewrite (digit_not_space c Hc). reflexivity.
Qed.

Ltac each_digit d :=
  let H := fresh in
  assert (H : d = 0 \/ d = 1 \/ d = 2 \/ d = 3 \/ d = 4 \/ d = 5 \/ d = 6
              \/ d = 7 \/ d = 8 \/ d = 9) by lia;
  repeat (destruct H as [H|H]; [rewrite H; reflexivity|]);
  rewrite H; reflexivity.

Lemma digitOf_digitChar (d : Z) : 0 <= d < 10 -> digitOf (digitChar d) = Some d.
Proof. intros Hd. each_digit d. Qed.

Lemma isDigit_digitChar (d : Z) : 0 <= d < 10 -> isDigit (digitChar d) = true.
Proof. intros Hd. each_digit d. Qed.

Lemma toDigits_digits (fuel : nat) :
  forall (n : Z) (rest : string),
  allChars isDigit rest = true -> allChars isDigit (toDigits fuel n rest) = true.
Proof.
  induction fuel as [|f IH]; intros n rest Hr; [exact Hr|].
  cbn [toDigits].
  assert (Hd : allChars isDigit (String (digitChar (n mod 10)) rest) = true).
  { cbn [allChars]. rewrite Hr, isDigit_digitChar; [reflexivity|].
    apply Z.mod_pos_bound. lia. }
  destruct (n <? 10); [exact Hd | apply IH; exact Hd].
Qed.

Lemma toDigits_cons (fuel : nat) :
  forall (n : Z) (c : ascii) (r : string),
  exists c' r', toDigits fuel n (String c r) = String c' r'.
Proof.
  induction fuel as [|f IH]; intros n c r; [cbn [toDigits]; eauto|].
  cbn [toDigits]. destruct (n <? 10); [eauto | apply IH].
Qed.

Lemma digits_cons (n : Z) : exists c r, digits n = String c r.
Proof.
  unfold digits. cbn [toDigits]. destruct (n <? 10); [eauto | apply toDigits_cons].
Qed.

(** Reading the digits [toDigits] wrote gives the number back: after the
    digits of [n], the value read so far has been shifted and [n] added. *)
Lemma toDigits_value (fuel : nat) :
  forall (n : Z) (rest : string),
  0 <= n < 10 ^ Z.of_nat fuel ->
  exists m, forall a,
    digitsValue (toDigits fuel n rest) a = digitsValue rest (a * m + n).
Proof.
  induction fuel as [|f IH]; intros n rest Hn.
  - exists 1. intros a. cbn [toDigits]. f_equal. change (10 ^ Z.of_nat 0) with 1 in Hn. lia.
  - rewrite Nat2Z.inj_succ, Z.pow_succ_r in Hn by lia.
    cbn [toDigits]. destruct (n <? 10) eqn:L.
    + apply Z.ltb_lt in L. exists 10. intros a. cbn [digitsValue].
      rewrite Z.mod_small by lia. rewrite digitOf_digitChar by lia. reflexivity.
    + apply Z.ltb_ge in L.
      assert (Hq : 0 <= n / 10 < 10 ^ Z.of_nat f).
      { split; [apply Z.div_pos; lia | apply Z.div_lt_upper_bound; lia]. }
      destruct (IH (n / 10) (String (digitChar (n mod 10)) rest) Hq) as [m Hm].
      exists (m * 10). intros a. rewrite Hm. cbn [digitsValue].
      rewrite digitOf_digitChar by (apply Z.mod_pos_bound; lia).
      f_equal. pose proof (Z.div_mod n 10 ltac:(lia)). lia.
Qed.

Lemma digits_fuel (n : Z) : 0 <= n -> 0 <= n < 10 ^ Z.of_nat (S (Z.to_nat (Z.log2 n))).
Proof.
  intros Hn. split; [exact Hn|].
  pose proof (Z.log2_nonneg n) as L.
  rewrite Nat2Z.inj_succ, Z2Nat.id by exact L.
  destruct (Z.eq_dec n 0) as [->|Hz]; [reflexivity|].
  pose proof (Z.log2_spec n ltac:(lia)) as [_ Hi].
  apply Z.lt_le_trans with (2 ^ Z.succ (Z.log2 n)); [exact Hi|].
  apply Z.pow_le_mono_l. lia.
Qed.

Lemma digits_value (n : Z) : 0 <= n -> digitsValue (digits n) 0 = Some n.
Proof.
  intros Hn. unfold digits.
  destruct (toDigits_value _ n EmptyString (digits_fuel n Hn)) as [m Hm].
  rewrite Hm. reflexivity.
Qed.

Lemma digits_digits (n : Z) : allChars isDigit (digits n) = true.
Proof. unfold digits. apply toDigits_digits. reflexivity. Qed.

Lemma unsignedLiteral_digits (n : Z) :
  0 <= n <= MAX_EXACT -> unsignedLiteral (digits n) = Some (JInt n).
Proof.
  intros [Hn Hm]. pose proof (digits_value n Hn) as V.
  pose proof (digits_digits n) as D.
  destruct (digits_cons n) as (c & r & E). rewrite E in *.
  unfold unsignedLiteral.
  destruct (String.eqb (String c r) "Infinity") eqn:I.
  - apply String.eqb_eq in I. inversion I; subst c.
    cbn [allChars] in D. discriminate D.
  - rewrite V. apply Z.leb_le in Hm. rewrite Hm. reflexivity.
Qed.

Lemma js_Number_digits (n : Z) :
  0 <= n <= MAX_EXACT -> js_Number (digits n) = Some (JInt n).
Proof.
  intros Hn. unfold js_Number.
  rewrite trimStart_digits, trimEnd_digits by apply digits_digits.
  pose proof (unsignedLiteral_digits n Hn) as U.
  pose proof (digits_digits n) as D.
  destruct (digits n) as [|c r]; [discriminate U|].
  cbn [allChars] in D. apply andb_true_iff in D. destruct D as [Dc _].
  destruct c as [[] [] [] [] [] [] [] []]; try discriminate Dc; exact U.
Qed.

Lemma js_Number_minus_digits (n : Z) :
  0 <= n <= MAX_EXACT -> js_Number (String "-" (digits n)) = Some (JInt (- n)).
Proof.
  intros Hn. unfold js_Number.
  change (trimStart (String "-" (digits n))) with (String "-" (digits n)).
  assert (T : trimEnd (String "-" (digits n)) = String "-" (digits n)).
  { cbn [trimEnd]. rewrite trimEnd_digits by apply digits_digits.
    destruct (digits_cons n) as (c & r & E). rewrite E. reflexivity. }
  rewrite T. rewrite (unsignedLiteral_digits n Hn). reflexivity.
Qed.

(** [Number(String(z))] is [z] for the integers a double holds exactly. *)
Lemma js_Number_js_String (z : Z) :
  - MAX_EXACT <= z <= MAX_EXACT -> js_Number (js_String z) = Some (JInt z).
Proof.
  intros Hz. unfold js_String. destruct (z <? 0) eqn:S.
  - apply Z.ltb_lt in S. rewrite js_Number_minus_digits by lia.
    now rewrite Z.opp_involutive.
  - apply Z.ltb_ge in S. apply js_Number_digits. lia.
Qed.

Lemma initBest_js_String (z : Z) :
  - MAX_EXACT <= z <= MAX_EXACT -> initBest (Some (js_String z)) = Some z.
Proof.
  intros Hz. pose proof (js_Number_js_String z Hz) as R. unfold initBest.
  destruct (js_String z) as [|c r].
  - change (js_Number "") with (Some (JInt 0)) in R. inversion R. reflexivity.
  - rewrite R. reflexivity.
Qed.

Lemma endGame_effect (finalScore : Z) (st : Store) :
  gameOver (endGame finalScore st) = true /\
  paused (endGame finalScore st) = false /\
  best (endGame finalScore st) = Z.max (best st) finalScore /\
  localStorage (endGame finalScore st) = Some (js_String (Z.max (best st) finalScore)).
Proof. repeat split. Qed.

(** C10: when [endGame] saves the best score [n], with [0 <= n] and [n]
    among the integers a double holds exactly, the item it writes is
    [String n], and the initialiser of the [best] cell reads that item
    back as [n]. *)
Theorem best_roundtrip (n finalScore : Z) (st : Store) :
  0 <= n <= MAX_EXACT ->
  Z.max (best st) finalScore = n ->
  best (endGame finalScore st) = n /\
  localStorage (endGame finalScore st) = Some (js_String n) /\
  initBest (localStorage (endGame finalScore st)) = Some n.
Proof.
  intros Hn Hmax.
  destruct (endGame_effect finalScore st) as (_ & _ & B & L).
  rewrite Hmax in B, L. split; [exact B|]. split; [exact L|].
  rewrite L. apply initBest_js_String. unfold MAX_EXACT in *. lia.
Qed.

Lemma best_roundtrip_witness :
  best (endGame 7 eatStore) = 7 /\
  localStorage (endGame 7 eatStore) = Some (js_String 7) /\
  initBest (localStorage (endGame 7 eatStore)) = Some 7.
Proof.
  apply (best_roundtrip 7 7 eatStore).
  - split; [lia | discriminate].
  - reflexivity.
Defined.




(** Eat, then hit the wall, both ticks from one closure. *)
Definition nearWall : Store :=
  setLast 1000
    (setFood {| x := 23; y := 12 |}
       (setSnake [ {| x := 22; y := 12 |}; {| x := 21; y := 12 |}; {| x := 20; y := 12 |} ]
          (initialStore {| x := 0; y := 0 |} 0 None))).

(** The score [endGame] is given is the closure's: a frame whose first
    tick eats and whose second tick hits the wall ends the game with 1
    point on the board and writes "0". *)
Example stale_score_is_saved :
  exists st',
    loop 10 nearWall 1240 [0; 0]%Q nearWall = Ret (st', []) /\
    gameOver st' = true /\ score st' = 1 /\ best st' = 0 /\
    localStorage st' = Some "0"%string.
Proof.
  eexists. split; [vm_compute; reflexivity|]. repeat split.
Qed.


(** The scenario of the spec: nothing stored loads as 0; a game ending at
    7 stores 7; a later game ending at 5 leaves 7. *)
Example best_score_scenario :
  initBest None = Some 0 /\
  mount None [0; 0]%Q = Ret (initialStore {| x := 0; y := 0 |} 0 None, []) /\
  localStorage (endGame 7 wallStore) = Some "7"%string /\
  best (endGame 7 wallStore) = 7 /\
  localStorage (endGame 5 (endGame 7 wallStore)) = Some "7"%string /\
  best (endGame 5 (endGame 7 wallStore)) = 7.
Proof. repeat split. Qed.

(** The wall is hit with 7 points on the board. *)
Definition endedAt7 : Store :=
  setSnake (snake wallStore) (endGame 7 (setScore 7 wallStore)).


(** * Further properties of the code *)

(** ** Random cells *)

(** The draws of [Math.random] lie in the half-open unit interval. *)
Definition unitDraw (u : Q) : Prop := (0 <= u)%Q /\ (u < 1)%Q.

Lemma floor_scaled_draw (u : Q) (k : Z) :
  unitDraw u -> 0 < k -> 0 <= Qfloor (u * inject_Z k) < k.
Proof.
  intros [H0 H1] Hk.
  assert (Kq : (0 < inject_Z k)%Q).
  { change 0%Q with (inject_Z 0). rewrite <- Zlt_Qlt. exact Hk. }
  split.
  - change 0 with (Qfloor 0). apply Qfloor_resp_le.
    apply Qmult_le_0_compat; [exact H0 | apply Qlt_le_weak; exact Kq].
  - rewrite Zlt_Qlt.
    apply Qle_lt_trans with (u * inject_Z k)%Q; [apply Qfloor_le|].
    setoid_replace (inject_Z k) with (1 * inject_Z k)%Q at 2 by ring.
    apply Qmult_lt_compat_r; assumption.
Qed.

(** X1: [randInt min max] lands in [min..max] for every draw in [0,1). *)
Theorem randInt_range (min max : Z) (u : Q) :
  unitDraw u -> min <= max ->
  min <= randInt min max u <= max.
Proof.
  intros Hu Hmm. unfold randInt.
  pose proof (floor_scaled_draw u (max - min + 1) Hu ltac:(lia)). lia.
Qed.

Lemma randInt_range_witness : 3 <= randInt 3 8 (5 # 6) <= 8.
Proof.
  apply (randInt_range 3 8 (5 # 6)).
  - split; [discriminate | reflexivity].
  - lia.
Defined.

Lemma randInt_bounds_grid (u : Q) :
  unitDraw u -> 0 <= randInt 0 (GRID - 1) u < GRID.
Proof.
  intros Hu. unfold randInt, GRID.
  pose proof (floor_scaled_draw u (24 - 1 - 0 + 1) Hu ltac:(lia)). lia.
Qed.

Lemma candidate_inBounds (u v : Q) :
  unitDraw u -> unitDraw v -> inBounds (candidate u v) = true.
Proof.
  intros Hu Hv. unfold candidate, inBounds. cbn [x y].
  pose proof (randInt_bounds_grid u Hu) as A.
  pose proof (randInt_bounds_grid v Hv) as B.
  repeat (apply andb_true_iff; split);
    first [apply Z.leb_le | apply Z.ltb_lt]; lia.
Qed.

(** X2: with draws in [0,1), [placeFood] returns as soon as a turn is
    offered a free cell, and the cell it returns is on the board and off
    the snake it was given. *)
Theorem placeFood_on_board_off_snake (snake : list Cell) (tape : list Q) :
  Forall unitDraw tape ->
  freeDraw snake tape ->
  exists f tape',
    placeFood snake tape = Ret (f, tape') /\
    inBounds f = true /\ ~ In f snake /\ Forall unitDraw tape'.
Proof.
  intros Hu Hfree. destruct (placeFood_total snake tape Hfree) as (f & tape' & P & Off).
  exists f, tape'. split; [exact P|].
  enough (inBounds f = true /\ Forall unitDraw tape') by tauto.
  clear Hfree Off. revert Hu P.
  induction tape as [|u|u v rest IH] using draws_ind; try discriminate.
  intros Hu. rewrite placeFood_turn.
  inversion Hu as [|? ? Hu1 Hu']; subst. inversion Hu' as [|? ? Hu2 Hrest]; subst.
  destruct (occupied snake (candidate u v)); simpl.
  - apply IH. exact Hrest.
  - intros E. inversion E; subst. split; [now apply candidate_inBounds | exact Hrest].
Qed.

Lemma placeFood_on_board_off_snake_witness :
  exists f tape',
    placeFood makeInitialSnake [1 # 2; 1 # 2; 1 # 3; 3 # 4]%Q = Ret (f, tape') /\
    inBounds f = true /\ ~ In f makeInitialSnake /\ Forall unitDraw tape'.
Proof.
  apply (placeFood_on_board_off_snake makeInitialSnake [1 # 2; 1 # 2; 1 # 3; 3 # 4]%Q).
  - repeat constructor; discriminate.
  - exists [1 # 2; 1 # 2]%Q, (1 # 3)%Q, (3 # 4)%Q, []. repeat split.
    exists 1%nat. reflexivity.
Defined.

(** X3: on a board with no free cell the retry loop of [placeFood] never
    exits: no supply of draws in [0,1), however long, makes it return. *)
Theorem placeFood_full_board (snake : list Cell) (tape : list Q) :
  (forall c, inBounds c = true -> In c snake) ->
  Forall unitDraw tape ->
  placeFood snake tape = NoDraw.
Proof.
  intros Hfull.
  induction tape as [|u|u v rest IH] using draws_ind; try reflexivity.
  intros Hu. rewrite placeFood_turn.
  inversion Hu as [|? ? Hu1 Hu']; subst. inversion Hu' as [|? ? Hu2 Hrest]; subst.
  assert (O : occupied snake (candidate u v) = true).
  { apply occupied_In. apply Hfull. now apply candidate_inBounds. }
  rewrite O. simpl. apply IH. exact Hrest.
Qed.

(** All 576 cells of the board. *)
Definition allCells : list Cell :=
  flat_map (fun i => map (fun j => {| x := Z.of_nat i; y := Z.of_nat j |})
                         (seq 0 (Z.to_nat GRID)))
           (seq 0 (Z.to_nat GRID)).

Lemma allCells_complete (c : Cell) : inBounds c = true -> In c allCells.
Proof.
  unfold inBounds. intros H.
  repeat (apply andb_true_iff in H; destruct H as [H ?]).
  apply Z.leb_le in H. apply Z.ltb_lt in H0, H2. apply Z.leb_le in H1.
  unfold allCells. apply in_flat_map. exists (Z.to_nat (x c)). split.
  - apply in_seq. unfold GRID in *. lia.
  - apply in_map_iff. exists (Z.to_nat (y c)). split.
    + destruct c as [cx cy]. cbn [x y] in *. f_equal; lia.
    + apply in_seq. unfold GRID in *. lia.
Qed.

Lemma placeFood_full_board_witness :
  placeFood allCells [1 # 2; 1 # 2; 0; 0; 1 # 3; 2 # 3]%Q = NoDraw.
Proof.
  apply (placeFood_full_board allCells [1 # 2; 1 # 2; 0; 0; 1 # 3; 2 # 3]%Q).
  - exact allCells_complete.
  - repeat constructor; discriminate.
Defined.

(** X4: [clamp n a b] with [a <= b] lies in [a, b], is [n] when [n] is
    already there, [a] when [n] is below and [b] when [n] is above. *)
Theorem clamp_cases (n a b : Q) :
  (a <= b)%Q ->
  (a <= clamp n a b)%Q /\ (clamp n a b <= b)%Q /\
  ((a <= n)%Q -> (n <= b)%Q -> (clamp n a b == n)%Q) /\
  ((n <= a)%Q -> (clamp n a b == a)%Q) /\
  ((b <= n)%Q -> (clamp n a b == b)%Q).
Proof.
  intros Hab. destruct (clamp_bounds n a b Hab) as [Lo Hi].
  split; [exact Lo|]. split; [exact Hi|]. unfold clamp. split; [|split].
  - intros Han Hnb. rewrite (Q.min_r b n Hnb). apply Q.max_r. exact Han.
  - intros Hna. apply Q.max_l.
    apply Qle_trans with n; [apply Q.le_min_r | exact Hna].
  - intros Hbn. rewrite (Q.min_l b n Hbn). apply Q.max_r. exact Hab.
Qed.

Lemma clamp_cases_witness :
  (0 <= clamp 1500 0 1000)%Q /\ (clamp 1500 0 1000 <= 1000)%Q /\
  ((0 <= 1500)%Q -> (1500 <= 1000)%Q -> (clamp 1500 0 1000 == 1500)%Q) /\
  ((1500 <= 0)%Q -> (clamp 1500 0 1000 == 0)%Q) /\
  ((1000 <= 1500)%Q -> (clamp 1500 0 1000 == 1000)%Q).
Proof.
  apply (clamp_cases 1500 0 1000). discriminate.
Defined.

(** ** One tick, whatever closure it runs from *)

(** The three ways a [step] that returns can leave the store: nothing on
    the board changed (no-op or game over), the snake ate, the snake
    moved. *)
Inductive stepped (view st : Store) (tape : list Q) (st' : Store) (tape' : list Q) : Prop :=
| Stayed :
    snake st' = snake st -> food st' = food st -> score st' = score st ->
    tickMs st' = tickMs st -> tape' = tape ->
    stepped view st tape st' tape'
| Ate (h : Cell) (tl : list Cell) :
    snake st = h :: tl ->
    inBounds (advance h (appliedDir view)) = true ->
    ~ In (advance h (appliedDir view)) (snake st) ->
    same (advance h (appliedDir view)) (food view) = true ->
    placeFood (advance h (appliedDir view) :: snake st) tape = Ret (food st', tape') ->
    snake st' = advance h (appliedDir view) :: snake st ->
    score st' = score view + 1 ->
    tickMs st' = nextTick (tickMs st) ->
    stepped view st tape st' tape'
| Moved (h : Cell) (tl : list Cell) :
    snake st = h :: tl ->
    inBounds (advance h (appliedDir view)) = true ->
    ~ In (advance h (appliedDir view)) (removelast (snake st)) ->
    same (advance h (appliedDir view)) (food view) = false ->
    snake st' = advance h (appliedDir view) :: removelast (snake st) ->
    food st' = food st -> score st' = score st ->
    tickMs st' = tickMs st -> tape' = tape ->
    stepped view st tape st' tape'.

Lemma step_inv (view st : Store) (tape : list Q) (st' : Store) (tape' : list Q) :
  step view tape st = Ret (st', tape') -> stepped view st tape st' tape'.
Proof.
  intros R. destruct (gameOver view || paused view) eqn:Fl.
  { rewrite step_noop in R by (apply orb_true_iff in Fl; tauto).
    inversion R; subst. now apply Stayed. }
  assert (Hrun : running view) by (apply orb_false_iff in Fl; exact Fl).
  destruct (snake st) as [|h tl] eqn:Hs.
  { unfold step in R. rewrite Fl, Hs in R. discriminate R. }
  destruct (commit_frame view st) as (Cs & Cf & Csc & Ct & _).
  destruct (inBounds (advance h (appliedDir view))) eqn:B.
  2:{ rewrite (step_wall view st tape h tl Hrun Hs B) in R. inversion R; subst.
      apply Stayed; try reflexivity; cbn; assumption. }
  destruct (existsb (fun s => same s (advance h (appliedDir view)))
              (bodyToCheck (same (advance h (appliedDir view)) (food view)) (snake st))) eqn:X.
  { rewrite (step_hit view st tape h tl Hrun Hs B X) in R. inversion R; subst.
    apply Stayed; try reflexivity; cbn; assumption. }
  assert (Off : ~ In (advance h (appliedDir view))
                  (bodyToCheck (same (advance h (appliedDir view)) (food view)) (snake st))).
  { rewrite <- some_same_In. congruence. }
  destruct (same (advance h (appliedDir view)) (food view)) eqn:Heat;
    unfold bodyToCheck in X, Off.
  - rewrite (step_eat view st tape h tl Hrun Hs B Heat X) in R.
    destruct (placeFood _ tape) as [[f t]| | | |] eqn:P; simpl in R; try discriminate R.
    inversion R; subst st' tape'.
    apply (Ate view st tape _ _ h tl); try assumption; try reflexivity.
    cbn [tickMs setSnake setFood setTickMs]. now rewrite Ct.
  - rewrite (step_move view st tape h tl Hrun Hs B Heat X) in R.
    inversion R; subst st' tape'.
    apply (Moved view st tape _ _ h tl); try assumption; try reflexivity.
    cbn [snake setSnake]. rewrite Hs. reflexivity.
Qed.

(** *** Lists without their last element *)

Lemma In_removelast (A : Type) (l : list A) (a : A) : In a (removelast l) -> In a l.
Proof.
  induction l as [|b l IH]; simpl; [tauto|].
  destruct l as [|c l]; [simpl; tauto|].
  intros [E|H]; [left; exact E | right; apply IH; exact H].
Qed.

Lemma Forall_removelast (A : Type) (P : A -> Prop) (l : list A) :
  Forall P l -> Forall P (removelast l).
Proof.
  rewrite !Forall_forall. intros H a Ha. apply H. now apply In_removelast.
Qed.

Lemma NoDup_removelast (A : Type) (l : list A) : NoDup l -> NoDup (removelast l).
Proof.
  induction l as [|b l IH]; simpl; [intros; constructor|].
  intros H. inversion H as [|? ? Hb Hl]; subst.
  destruct l as [|c l]; [constructor|].
  constructor; [|apply IH; exact Hl].
  intros C. apply Hb. now apply In_removelast.
Qed.

Lemma length_removelast_cons (A : Type) (a : A) (l : list A) :
  List.length (a :: removelast l) = List.length l \/ l = [].
Proof.
  destruct l as [|b l]; [right; reflexivity|]. left.
  revert b. induction l as [|c l IH]; intros b; [reflexivity|].
  specialize (IH c). simpl in *. lia.
Qed.

(** ** What a tick keeps true of the board *)

Definition onBoard (l : list Cell) : Prop := Forall (fun c => inBounds c = true) l.

(** Two cells side by side: one unit step apart along one axis. *)
Definition neighbours (a b : Cell) : Prop :=
  Z.abs (x a - x b) + Z.abs (y a - y b) = 1.

(** Each cell of the snake is next to the one that follows it. *)
Fixpoint contiguous (l : list Cell) : Prop :=
  match l with
  | a :: r => match r with
              | b :: _ => neighbours a b /\ contiguous r
              | [] => True
              end
  | [] => True
  end.

Definition unitVec (d : Cell) : Prop := Z.abs (x d) + Z.abs (y d) = 1.

Lemma contiguous_removelast (l : list Cell) : contiguous l -> contiguous (removelast l).
Proof.
  induction l as [|a l IH]; [exact (fun H => H)|].
  destruct l as [|b l]; [exact (fun H => H)|].
  intros [N C]. specialize (IH C).
  destruct l as [|c l]; [exact I|].
  split; [exact N | exact IH].
Qed.

Definition startStore : Store := initialStore {| x := 3; y := 4 |} 0 None.

Definition movedStore : Store :=
  setSnake [ {| x := 13; y := 12 |}; {| x := 12; y := 12 |}; {| x := 11; y := 12 |} ]
    startStore.

Definition grownStore : Store :=
  setSnake ({| x := 13; y := 12 |} :: makeInitialSnake)
    (setFood {| x := 0; y := 0 |} (setTickMs 117 (setScore 1 eatStore))).

Lemma startStore_moves : step startStore [] startStore = Ret (movedStore, []).
Proof. reflexivity. Qed.

Lemma eatStore_grows : step eatStore [0; 0]%Q eatStore = Ret (grownStore, []).
Proof. reflexivity. Qed.

(** X5: a tick, whichever closure it runs from, leaves every cell of the
    snake on the 24 by 24 board if they all were. *)
Theorem step_keeps_snake_on_board (view st : Store) (tape : list Q) (st' : Store)
        (tape' : list Q) :
  onBoard (snake st) ->
  step view tape st = Ret (st', tape') ->
  onBoard (snake st').
Proof.
  intros Hb R. unfold onBoard in *.
  destruct (step_inv view st tape st' tape' R)
    as [E _ _ _ _ | h tl _ B _ _ _ E _ _ | h tl _ B _ _ E _ _ _ _]; rewrite E.
  - exact Hb.
  - constructor; assumption.
  - constructor; [exact B | now apply Forall_removelast].
Qed.

Lemma step_keeps_snake_on_board_witness : onBoard (snake grownStore).
Proof.
  apply (step_keeps_snake_on_board eatStore eatStore [0; 0]%Q grownStore []).
  - repeat constructor.
  - reflexivity.
Defined.

(** X6: a tick, whichever closure it runs from, leaves the cells of the
    snake pairwise distinct if they were. *)
Theorem step_keeps_snake_distinct (view st : Store) (tape : list Q) (st' : Store)
        (tape' : list Q) :
  NoDup (snake st) ->
  step view tape st = Ret (st', tape') ->
  NoDup (snake st').
Proof.
  intros Hd R.
  destruct (step_inv view st tape st' tape' R)
    as [E _ _ _ _ | h tl _ _ Off _ _ E _ _ | h tl _ _ Off _ E _ _ _ _]; rewrite E.
  - exact Hd.
  - constructor; assumption.
  - constructor; [exact Off | now apply NoDup_removelast].
Qed.

Lemma startStore_distinct : NoDup (snake startStore).
Proof.
  repeat constructor; simpl; intros H;
    repeat (destruct H as [H|H]; [discriminate H|]); exact H.
Qed.

Lemma step_keeps_snake_distinct_witness : NoDup (snake movedStore).
Proof.
  apply (step_keeps_snake_distinct startStore startStore [] movedStore []).
  - exact startStore_distinct.
  - reflexivity.
Defined.

(** X7: when the direction the closure applies is a unit step, a tick
    leaves the snake a chain of side-by-side cells if it was one. *)
Theorem step_keeps_snake_contiguous (view st : Store) (tape : list Q) (st' : Store)
        (tape' : list Q) :
  unitVec (appliedDir view) ->
  contiguous (snake st) ->
  step view tape st = Ret (st', tape') ->
  contiguous (snake st').
Proof.
  intros Hu Hc R.
  assert (N : forall h, neighbours (advance h (appliedDir view)) h).
  { intros h. unfold neighbours, advance, unitVec in *. cbn [x y]. lia. }
  destruct (step_inv view st tape st' tape' R)
    as [E _ _ _ _ | h tl Hs _ _ _ _ E _ _ | h tl Hs _ _ _ E _ _ _ _]; rewrite E.
  - exact Hc.
  - rewrite Hs. split; [apply N | rewrite <- Hs; exact Hc].
  - pose proof (contiguous_removelast _ Hc) as Hr. rewrite Hs in Hr |- *.
    destruct tl as [|b tl]; [exact I|].
    split; [apply N | exact Hr].
Qed.

Lemma step_keeps_snake_contiguous_witness : contiguous (snake movedStore).
Proof.
  apply (step_keeps_snake_contiguous startStore startStore [] movedStore []).
  - reflexivity.
  - repeat split.
  - reflexivity.
Defined.

Lemma placeFood_inBounds (snake : list Cell) (tape : list Q) (f : Cell) (tape' : list Q) :
  Forall unitDraw tape ->
  placeFood snake tape = Ret (f, tape') ->
  inBounds f = true /\ Forall unitDraw tape'.
Proof.
  induction tape as [|u|u v rest IH] using draws_ind; try discriminate.
  intros Hu. rewrite placeFood_turn.
  inversion Hu as [|? ? Hu1 Hu']; subst. inversion Hu' as [|? ? Hu2 Hrest]; subst.
  destruct (occupied snake (candidate u v)); simpl.
  - apply IH. exact Hrest.
  - intros E. inversion E; subst. split; [now apply candidate_inBounds | exact Hrest].
Qed.

(** X8: from a fresh render, a tick leaves the food off the snake if it
    was off it: an eaten food is replaced by a cell off the grown snake,
    and a snake that only moves does not step onto the food. *)
Theorem step_keeps_food_off_snake (st : Store) (tape : list Q) (st' : Store)
        (tape' : list Q) :
  ~ In (food st) (snake st) ->
  step st tape st = Ret (st', tape') ->
  ~ In (food st') (snake st').
Proof.
  intros Hoff R.
  destruct (step_inv st st tape st' tape' R)
    as [E F _ _ _ | h tl _ _ _ _ P E _ _ | h tl _ _ _ Heat E F _ _ _].
  - rewrite E, F. exact Hoff.
  - rewrite E. exact (placeFood_free _ _ _ _ P).
  - rewrite E, F. intros [C|C].
    + apply same_false_iff in Heat. exact (Heat C).
    + apply Hoff. now apply In_removelast.
Qed.

Lemma step_keeps_food_off_snake_witness : ~ In (food movedStore) (snake movedStore).
Proof.
  apply (step_keeps_food_off_snake startStore [] movedStore []).
  - simpl. intros H. repeat (destruct H as [H|H]; [discriminate H|]). exact H.
  - reflexivity.
Defined.

(** X9: with draws in [0,1), a tick, whichever closure it runs from,
    leaves the food on the board if it was on it, and hands on draws that
    are still in [0,1). *)
Theorem step_keeps_food_on_board (view st : Store) (tape : list Q) (st' : Store)
        (tape' : list Q) :
  inBounds (food st) = true ->
  Forall unitDraw tape ->
  step view tape st = Ret (st', tape') ->
  inBounds (food st') = true /\ Forall unitDraw tape'.
Proof.
  intros Hb Hu R.
  destruct (step_inv view st tape st' tape' R)
    as [_ F _ _ T | h tl _ _ _ _ P _ _ _ | h tl _ _ _ _ _ F _ _ T].
  - rewrite F, T. split; assumption.
  - exact (placeFood_inBounds _ _ _ _ Hu P).
  - rewrite F, T. split; assumption.
Qed.

Lemma step_keeps_food_on_board_witness :
  inBounds (food grownStore) = true /\ Forall unitDraw [].
Proof.
  apply (step_keeps_food_on_board eatStore eatStore [0; 0]%Q grownStore []).
  - reflexivity.
  - repeat constructor; discriminate.
  - reflexivity.
Defined.

(** X10: from a fresh render, a tick never shortens the snake, and the
    snake gains exactly as many cells as the score gains points: length
    minus score is the same before and after. *)
Theorem step_length_follows_score (st : Store) (tape : list Q) (st' : Store)
        (tape' : list Q) :
  step st tape st = Ret (st', tape') ->
  (List.length (snake st) <= List.length (snake st'))%nat /\
  Z.of_nat (List.length (snake st')) - score st'
  = Z.of_nat (List.length (snake st)) - score st /\
  (score st' = score st \/ score st' = score st + 1).
Proof.
  intros R.
  destruct (step_inv st st tape st' tape' R)
    as [E _ S _ _ | h tl _ _ _ _ _ E S _ | h tl Hs _ _ _ E _ S _ _]; rewrite E, S.
  - split; [lia|]. split; [lia | left; reflexivity].
  - cbn [List.length]. split; [lia|]. split; [lia | right; reflexivity].
  - destruct (length_removelast_cons _ (advance h (appliedDir st)) (snake st)) as [L|L].
    + rewrite L. split; [lia|]. split; [lia | left; reflexivity].
    + rewrite L in Hs. discriminate Hs.
Qed.

Lemma step_length_follows_score_witness :
  (List.length (snake eatStore) <= List.length (snake grownStore))%nat /\
  Z.of_nat (List.length (snake grownStore)) - score grownStore
  = Z.of_nat (List.length (snake eatStore)) - score eatStore /\
  (score grownStore = score eatStore \/ score grownStore = score eatStore + 1).
Proof.
  apply (step_length_follows_score eatStore [0; 0]%Q grownStore []).
  reflexivity.
Defined.

Lemma nextTick_le (t : Z) : MIN_TICK_MS <= t -> nextTick t <= t.
Proof.
  intros H. rewrite nextTick_div. unfold MIN_TICK_MS in H.
  apply Z.max_lub; [exact H|].
  apply Z.div_le_upper_bound; lia.
Qed.

Lemma nextTick_lt (t : Z) : MIN_TICK_MS < t -> nextTick t < t.
Proof.
  intros H. rewrite nextTick_div. unfold MIN_TICK_MS in H.
  apply Z.max_lub_lt; [exact H|].
  apply Z.div_lt_upper_bound; lia.
Qed.

(** X11: a tick, whichever closure it runs from, never lengthens the tick
    interval and never takes it below 55 ms when it was at least 55 ms; a
    tick that grows the snake shortens the interval as long as it is above
    55 ms. *)
Theorem step_tick_interval_bounds (view st : Store) (tape : list Q) (st' : Store)
        (tape' : list Q) :
  MIN_TICK_MS <= tickMs st ->
  step view tape st = Ret (st', tape') ->
  MIN_TICK_MS <= tickMs st' <= tickMs st /\
  (List.length (snake st') = S (List.length (snake st)) ->
   MIN_TICK_MS < tickMs st -> tickMs st' < tickMs st).
Proof.
  intros Hm R.
  destruct (step_inv view st tape st' tape' R)
    as [E _ _ T _ | h tl _ _ _ _ _ E _ T | h tl Hs _ _ _ E _ _ T _]; rewrite T.
  - split; [lia|]. rewrite E. lia.
  - split.
    + split; [apply nextTick_floor | now apply nextTick_le].
    + intros _. apply nextTick_lt.
  - split; [lia|]. rewrite E.
    destruct (length_removelast_cons _ (advance h (appliedDir view)) (snake st)) as [L|L].
    + rewrite L. lia.
    + rewrite L in Hs. discriminate Hs.
Qed.

Lemma step_tick_interval_bounds_witness :
  MIN_TICK_MS <= tickMs grownStore <= tickMs eatStore /\
  (List.length (snake grownStore) = S (List.length (snake eatStore)) ->
   MIN_TICK_MS < tickMs eatStore -> tickMs grownStore < tickMs eatStore).
Proof.
  apply (step_tick_interval_bounds eatStore eatStore [0; 0]%Q grownStore []).
  - discriminate.
  - reflexivity.
Defined.

(** X12: from a fresh render and with a direction that is not the zero
    vector, a tick never turns the snake back on itself: the direction it
    leaves is not the opposite of the one it found, whatever was
    buffered. *)
Theorem step_never_reverses (st : Store) (tape : list Q) (st' : Store) (tape' : list Q) :
  dir st <> {| x := 0; y := 0 |} ->
  step st tape st = Ret (st', tape') ->
  opposite (dir st') (dir st) = false.
Proof.
  intros Hnz R.
  assert (Self : opposite (dir st) (dir st) = false).
  { apply not_true_iff_false. intros O. apply Hnz. unfold opposite in O.
    apply andb_true_iff in O. destruct O as [A B].
    apply Z.eqb_eq in A, B. destruct (dir st) as [dx dy]. cbn [x y] in *.
    f_equal; lia. }
  destruct (step_dir st tape st' tape' R) as [E|E]; rewrite E; [exact Self|].
  unfold appliedDir. destruct (opposite (nextDir st) (dir st)) eqn:O; simpl; assumption.
Qed.

Lemma step_never_reverses_witness :
  opposite (dir (setDir right (setNextDir left movedStore))) (dir (setNextDir left startStore))
  = false.
Proof.
  apply (step_never_reverses (setNextDir left startStore) []
           (setDir right (setNextDir left movedStore)) []).
  - discriminate.
  - reflexivity.
Defined.

(** ** Ticks after the game has ended *)

Lemma endGame_twice (finalScore : Z) (st : Store) :
  endGame finalScore (endGame finalScore st) = endGame finalScore st.
Proof.
  destruct st as [sn d nd f sc b t p g a l ls].
  cbv [endGame setGameOver setPaused setItem setBest
       snake dir nextDir food score best tickMs paused gameOver accRef lastRef localStorage].
  rewrite <- Z.max_assoc, Z.max_id. reflexivity.
Qed.

Lemma commit_ended (view st : Store) (s : list Cell) (finalScore : Z) :
  commit view (setSnake s (endGame finalScore (commit view st)))
  = setSnake s (endGame finalScore (commit view st)).
Proof.
  unfold commit. destruct (negb (same (appliedDir view) (dir view))); reflexivity.
Qed.

Lemma setSnake_ended (s : list Cell) (finalScore : Z) (st : Store) :
  setSnake s (endGame finalScore (setSnake s (endGame finalScore st)))
  = setSnake s (endGame finalScore st).
Proof.
  destruct st as [sn d nd f sc b t p g a l ls].
  cbv [endGame setGameOver setPaused setItem setBest setSnake
       snake dir nextDir food score best tickMs paused gameOver accRef lastRef localStorage].
  rewrite <- Z.max_assoc, Z.max_id. reflexivity.
Qed.

(** X13: the frame loop does not look at [gameOver] between ticks, but a
    tick that ends the game (wall or self collision) can be repeated from
    the same closure without changing anything more: the store it leaves
    is a fixed point of that [step]. *)
Theorem step_game_over_is_fixed_point (view st : Store) (tape : list Q)
        (h : Cell) (tl : list Cell) :
  running view ->
  snake st = h :: tl ->
  inBounds (advance h (appliedDir view)) = false \/
  existsb (fun s => same s (advance h (appliedDir view)))
    (bodyToCheck (same (advance h (appliedDir view)) (food view)) (snake st)) = true ->
  exists st1,
    step view tape st = Ret (st1, tape) /\
    gameOver st1 = true /\
    step view tape st1 = Ret (st1, tape).
Proof.
  intros Hrun Hs Hend.
  set (st1 := setSnake (snake st) (endGame (score view) (commit view st))).
  assert (Hs1 : snake st1 = h :: tl) by exact Hs.
  assert (Fix : setSnake (snake st1) (endGame (score view) (commit view st1)) = st1).
  { unfold st1 at 2. rewrite commit_ended. apply setSnake_ended. }
  exists st1. destruct (inBounds (advance h (appliedDir view))) eqn:B.
  - destruct Hend as [C|X]; [discriminate C|].
    split; [apply (step_hit view st tape h tl Hrun Hs B X)|].
    split; [reflexivity|].
    rewrite (step_hit view st1 tape h tl Hrun Hs1 B X). now rewrite Fix.
  - split; [apply (step_wall view st tape h tl Hrun Hs B)|].
    split; [reflexivity|].
    rewrite (step_wall view st1 tape h tl Hrun Hs1 B). now rewrite Fix.
Qed.

Lemma step_game_over_is_fixed_point_witness :
  exists st1,
    step wallStore [] wallStore = Ret (st1, []) /\
    gameOver st1 = true /\
    step wallStore [] st1 = Ret (st1, []).
Proof.
  apply (step_game_over_is_fixed_point wallStore wallStore [] {| x := 23; y := 12 |}
           [ {| x := 22; y := 12 |}; {| x := 21; y := 12 |} ]).
  - split; reflexivity.
  - reflexivity.
  - left. reflexivity.
Defined.

(** ** How many ticks a frame runs *)

(** X14: the [while] loop, entered with the accumulator as line 315 leaves
    it (clamped to [0, 1000]), runs its body (one [step], then the
    subtraction of the closure's interval) some [n] times with [n]
    intervals at most 1000 ms: the ticks of a frame are bounded by
    1000 / tickMs, however long the frame took.  The loop ends within
    [fuel] turns as soon as [fuel] intervals exceed the clamp. *)
Theorem ticks_per_frame (fuel : nat) (view : Store) (tape : list Q) (st : Store) (a : Q) :
  0 < tickMs view ->
  accRef st = clamp a 0 1000 ->
  (1000 < inject_Z (Z.of_nat fuel) * inject_Z (tickMs view))%Q ->
  exists n : nat,
    ticks fuel view tape st = tickTimes n view tape st /\
    Z.of_nat n * tickMs view <= 1000.
Proof.
  intros HT Ha Hfuel.
  destruct (clamp_bounds a 0 1000) as [Lo Hi]; [discriminate|].
  rewrite <- Ha in Lo, Hi.
  destruct (ticks_whole_intervals fuel view tape st HT Lo) as (n & Ln & _ & E); [lra|].
  exists n. split; [exact E|].
  rewrite Zle_Qle, inject_Z_mult. change (inject_Z 1000) with 1000%Q. lra.
Qed.

Definition startFrame : Store := setLast 1000 startStore.

(** Five seconds banked at 120 ms a tick. *)
Lemma ticks_per_frame_witness :
  exists n : nat,
    ticks 20 startStore [] (setAcc (clamp 5000 0 1000) startStore)
    = tickTimes n startStore [] (setAcc (clamp 5000 0 1000) startStore) /\
    Z.of_nat n * tickMs startStore <= 1000.
Proof.
  apply (ticks_per_frame 20 startStore [] (setAcc (clamp 5000 0 1000) startStore) 5000).
  - reflexivity.
  - reflexivity.
  - reflexivity.
Defined.

(** Eight ticks, not forty-one. *)
Example ticks_of_five_seconds :
  ticks 20 startStore [] (setAcc (clamp 5000 0 1000) startStore)
  = tickTimes 8 startStore [] (setAcc (clamp 5000 0 1000) startStore).
Proof. vm_compute. reflexivity. Qed.

(** X15: a frame that arrives while the closure is paused or game over
    only records its time stamp: no tick runs and no time is added to the
    accumulator, so nothing is banked for later. *)
Theorem loop_idle_frame (fuel : nat) (view : Store) (ts : Q) (tape : list Q) (st : Store) :
  paused view = true \/ gameOver view = true ->
  loop fuel view ts tape st = Ret (setLast ts st, tape) /\
  accRef (setLast ts st) = accRef st /\ snake (setLast ts st) = snake st.
Proof.
  intros H. split; [|split; reflexivity].
  unfold loop.
  replace (negb (paused view) && negb (gameOver view)) with false
    by (destruct H as [-> | ->]; [reflexivity | now rewrite andb_false_r]).
  destruct (Qeq_bool (lastRef st) 0); reflexivity.
Qed.

Lemma loop_idle_frame_witness :
  loop 20 (setPaused true startStore) 6000 [] (setPaused true startFrame)
  = Ret (setLast 6000 (setPaused true startFrame), []) /\
  accRef (setLast 6000 (setPaused true startFrame)) = accRef (setPaused true startFrame) /\
  snake (setLast 6000 (setPaused true startFrame)) = snake (setPaused true startFrame).
Proof.
  apply (loop_idle_frame 20 (setPaused true startStore) 6000 [] (setPaused true startFrame)).
  left. reflexivity.
Defined.

(** ** Keys *)

Definition isRestartKey (e : KeyboardEvent) : bool :=
  String.eqb (key e) "r" || String.eqb (key e) "R".

Definition isSpace (e : KeyboardEvent) : bool := String.eqb (code e) "Space".

Lemma store_eta (st : Store) :
  mkStore (snake st) (dir st) (nextDir st) (food st) (score st) (best st) (tickMs st)
    (paused st) (gameOver st) (accRef st) (lastRef st) (localStorage st) = st.
Proof. destruct st. reflexivity. Qed.

(** X16: the pause key pressed twice, each time from a fresh render, gives
    back the store it started from when the game is not over; when the
    game is over it does nothing at all.  It never takes a random draw. *)
Theorem space_toggles_pause (st : Store) (e : KeyboardEvent) (tape : list Q) :
  isSpace e = true ->
  exists st1,
    onKeyDown st e tape st = Ret (st1, tape) /\
    onKeyDown st1 e tape st1 = Ret (st, tape) /\
    (gameOver st = true -> st1 = st) /\
    (gameOver st = false -> paused st1 = negb (paused st)).
Proof.
  unfold isSpace. intros Hsp. unfold onKeyDown. rewrite Hsp.
  destruct (gameOver st) eqn:G; simpl negb; cbv iota.
  - exists st. rewrite G. repeat split. discriminate.
  - exists (setPaused (negb (paused st)) st). cbn [gameOver setPaused]. rewrite G.
    simpl negb. cbv iota. repeat split; try discriminate.
    unfold setPaused. cbn. rewrite negb_involutive, store_eta. reflexivity.
Qed.

Lemma space_toggles_pause_witness :
  exists st1,
    onKeyDown startStore (mkKey "Space" " ") [] startStore = Ret (st1, []) /\
    onKeyDown st1 (mkKey "Space" " ") [] st1 = Ret (startStore, []) /\
    (gameOver startStore = true -> st1 = startStore) /\
    (gameOver startStore = false -> paused st1 = negb (paused startStore)).
Proof.
  apply (space_toggles_pause startStore (mkKey "Space" " ") []).
  reflexivity.
Defined.

(** X17: a key that is neither the pause key, nor a restart key, nor a
    name inherited from [Object.prototype] changes at most the buffered
    direction: a key outside the table leaves the store as it is, and a
    key of the table stores its direction in [nextDir], over whatever was
    buffered, unless it is the opposite of the closure's [dir], in which
    case nothing changes. *)
Theorem direction_key_buffers (view st : Store) (e : KeyboardEvent) (tape : list Q) :
  isSpace e = false ->
  isRestartKey e = false ->
  inherited (key e) = false ->
  exists st',
    onKeyDown view e tape st = Ret (st', tape) /\
    st' = setNextDir (nextDir st') st /\
    nextDir st' =
      match lookup (key e) dirs with
      | Some d => if opposite d (dir view) then nextDir st else d
      | None => nextDir st
      end.
Proof.
  unfold isSpace, isRestartKey. intros Hsp Hr Hi. unfold onKeyDown. rewrite Hsp, Hr, Hi.
  destruct (lookup (key e) dirs) as [d|].
  - destruct (opposite d (dir view)); simpl negb; cbv iota; eexists;
      (split; [reflexivity|]); split; try reflexivity.
    unfold setNextDir. now rewrite store_eta.
  - exists st. split; [reflexivity|]. split; [|reflexivity].
    unfold setNextDir. now rewrite store_eta.
Qed.

Lemma direction_key_buffers_witness :
  exists st',
    onKeyDown startStore (mkKey "KeyW" "w") [] startStore = Ret (st', []) /\
    st' = setNextDir (nextDir st') startStore /\
    nextDir st' =
      match lookup "w" dirs with
      | Some d => if opposite d (dir startStore) then nextDir startStore else d
      | None => nextDir startStore
      end.
Proof.
  apply (direction_key_buffers startStore startStore (mkKey "KeyW" "w") []);
    reflexivity.
Defined.

(** Every direction of the key table is one step along one axis. *)
Lemma dirs_unit (k : string) (d : Cell) : lookup k dirs = Some d -> unitVec d.
Proof.
  unfold dirs. cbn [lookup].
  repeat match goal with
         | |- context [if String.eqb k ?s then _ else _] => destruct (String.eqb k s)
         end;
    intros E; inversion E; reflexivity.
Qed.

Definition unitDirs (st : Store) : Prop := unitVec (dir st) /\ unitVec (nextDir st).

Lemma step_nextDir (view st : Store) (tape : list Q) (st' : Store) (tape' : list Q) :
  step view tape st = Ret (st', tape') -> nextDir st' = nextDir st.
Proof.
  destruct (commit_frame view st) as (_ & _ & _ & _ & _ & _ & _ & Hn & _).
  unfold step. destruct (gameOver view || paused view).
  - intros H. inversion H. reflexivity.
  - fold (commit view st). destruct (snake st) as [|h tl]; [discriminate|].
    cbv zeta.
    repeat match goal with
           | |- context [if ?b then _ else _] => destruct b
           end;
      try (intros H; inversion H; cbn; exact Hn).
    destruct (placeFood _ tape) as [[f t]| | | |]; simpl; try discriminate.
    intros H; inversion H; cbn; exact Hn.
Qed.

Lemma reset_effect (tape : list Q) (st st' : Store) (tape' : list Q) :
  reset tape st = Ret (st', tape') ->
  placeFood makeInitialSnake tape = Ret (food st', tape') /\
  snake st' = makeInitialSnake /\ dir st' = right /\ nextDir st' = right /\
  score st' = 0 /\ tickMs st' = BASE_TICK_MS /\
  paused st' = false /\ gameOver st' = false /\ (accRef st' == 0)%Q /\
  best st' = best st /\ localStorage st' = localStorage st /\ lastRef st' = lastRef st.
Proof.
  unfold reset. cbv zeta.
  destruct (placeFood makeInitialSnake tape) as [[f t]| | | |] eqn:P; simpl;
    try discriminate.
  intros H. inversion H; subst. cbn. repeat split; reflexivity.
Qed.

(** X18: a key that is no name inherited from [Object.prototype], handled
    from a fresh render, leaves [dir] and [nextDir] unit steps if they
    were: the table holds unit steps only, and a restart sets both to
    (1,0). *)
Theorem key_keeps_unit_directions (st : Store) (e : KeyboardEvent) (tape : list Q)
        (st' : Store) (tape' : list Q) :
  unitDirs st ->
  inherited (key e) = false ->
  onKeyDown st e tape st = Ret (st', tape') ->
  unitDirs st'.
Proof.
  intros [Hd Hn] Hi. unfold onKeyDown. rewrite Hi.
  destruct (String.eqb (code e) "Space").
  { intros H. inversion H. destruct (negb (gameOver st)); split; assumption. }
  destruct (String.eqb (key e) "r" || String.eqb (key e) "R").
  { intros H. destruct (reset_effect _ _ _ _ H) as (_ & _ & D & N & _).
    unfold unitDirs. rewrite D, N. split; reflexivity. }
  destruct (lookup (key e) dirs) as [d|] eqn:L.
  - intros H. inversion H. destruct (negb (opposite d (dir st))).
    + split; [exact Hd | exact (dirs_unit _ _ L)].
    + split; assumption.
  - intros H. inversion H; subst. split; assumption.
Qed.

Lemma key_keeps_unit_directions_witness :
  unitDirs (setNextDir {| x := 0; y := -1 |} startStore).
Proof.
  apply (key_keeps_unit_directions startStore (mkKey "ArrowUp" "ArrowUp") []
           (setNextDir {| x := 0; y := -1 |} startStore) []).
  - split; reflexivity.
  - reflexivity.
  - reflexivity.
Defined.

(** X19: a tick from a fresh render leaves [dir] and [nextDir] unit steps
    if they were, and the direction it moves the head by is a unit
    step. *)
Theorem step_keeps_unit_directions (st : Store) (tape : list Q) (st' : Store)
        (tape' : list Q) :
  unitDirs st ->
  step st tape st = Ret (st', tape') ->
  unitDirs st' /\ unitVec (appliedDir st).
Proof.
  intros [Hd Hn] R.
  assert (Ha : unitVec (appliedDir st)).
  { unfold appliedDir. destruct (negb (opposite (nextDir st) (dir st))); assumption. }
  split; [|exact Ha]. split.
  - destruct (step_dir st tape st' tape' R) as [E|E]; rewrite E; assumption.
  - rewrite (step_nextDir st st tape st' tape' R). exact Hn.
Qed.

Lemma step_keeps_unit_directions_witness :
  unitDirs movedStore /\ unitVec (appliedDir startStore).
Proof.
  apply (step_keeps_unit_directions startStore [] movedStore []).
  - split; reflexivity.
  - reflexivity.
Defined.

(** X20: a restart key, whatever the game was doing, starts a new game as
    soon as the draws offer a cell off the initial snake: running, score 0,
    interval 120 ms, the initial snake heading right, an empty
    accumulator, and the food on the board and off the snake; the best
    score and the stored item are carried over untouched. *)
Theorem restart_key_starts_over (view st : Store) (e : KeyboardEvent) (tape : list Q) :
  isSpace e = false ->
  isRestartKey e = true ->
  Forall unitDraw tape ->
  freeDraw makeInitialSnake tape ->
  exists st' tape',
    onKeyDown view e tape st = Ret (st', tape') /\
    running st' /\ snake st' = makeInitialSnake /\
    dir st' = right /\ nextDir st' = right /\
    score st' = 0 /\ tickMs st' = BASE_TICK_MS /\ (accRef st' == 0)%Q /\
    inBounds (food st') = true /\ ~ In (food st') (snake st') /\
    best st' = best st /\ localStorage st' = localStorage st.
Proof.
  unfold isSpace, isRestartKey. intros Hsp Hr Hu Hfree.
  unfold onKeyDown. rewrite Hsp, Hr.
  destruct (placeFood_total _ _ Hfree) as (f & t & P & _).
  assert (R : exists st', reset tape st = Ret (st', t)).
  { unfold reset. cbv zeta. rewrite P. simpl. eauto. }
  destruct R as [st' R]. exists st', t. split; [exact R|].
  destruct (reset_effect _ _ _ _ R)
    as (P' & S & D & N & Sc & T & Pa & G & A & B & L & _).
  destruct (placeFood_inBounds _ _ _ _ Hu P') as [Bf _].
  pose proof (placeFood_free _ _ _ _ P') as Off. rewrite <- S in Off.
  repeat split; assumption.
Qed.

Lemma restart_key_starts_over_witness :
  exists st' tape',
    onKeyDown wallStore (mkKey "KeyR" "R") [1 # 2; 1 # 2; 0; 0]%Q endedAt7
    = Ret (st', tape') /\
    running st' /\ snake st' = makeInitialSnake /\
    dir st' = right /\ nextDir st' = right /\
    score st' = 0 /\ tickMs st' = BASE_TICK_MS /\ (accRef st' == 0)%Q /\
    inBounds (food st') = true /\ ~ In (food st') (snake st') /\
    best st' = best endedAt7 /\ localStorage st' = localStorage endedAt7.
Proof.
  apply (restart_key_starts_over wallStore endedAt7 (mkKey "KeyR" "R")
           [1 # 2; 1 # 2; 0; 0]%Q).
  - reflexivity.
  - reflexivity.
  - repeat constructor; discriminate.
  - exists [1 # 2; 1 # 2]%Q, 0%Q, 0%Q, []. repeat split. exists 1%nat. reflexivity.
Defined.

(** X21: mounting the component, as soon as the draws offer a cell off the
    initial snake and the stored item (if any) reads as [b] (an absent or
    blank item, a non-finite one, or an integer literal of at most 2^53 in
    magnitude: what [initBest] covers): the store is the initial one with
    [best = b], its food is on the board and off the snake, and nothing is
    written to storage. *)
Theorem mount_initial_store (item : option string) (b : Z) (tape : list Q) :
  Forall unitDraw tape ->
  freeDraw makeInitialSnake tape ->
  initBest item = Some b ->
  exists f tape',
    mount item tape = Ret (initialStore f b item, tape') /\
    inBounds f = true /\ ~ In f makeInitialSnake /\
    localStorage (initialStore f b item) = item /\
    running (initialStore f b item).
Proof.
  intros Hu Hfree Hb.
  destruct (placeFood_total _ _ Hfree) as (f & t & P & Off).
  destruct (placeFood_inBounds _ _ _ _ Hu P) as [Bf _].
  exists f, t. unfold mount. rewrite P. simpl bind. rewrite Hb.
  repeat split; assumption.
Qed.

Lemma mount_initial_store_witness :
  exists f tape',
    mount (Some "7"%string) [0; 0]%Q = Ret (initialStore f 7 (Some "7"%string), tape') /\
    inBounds f = true /\ ~ In f makeInitialSnake /\
    localStorage (initialStore f 7 (Some "7"%string)) = Some "7"%string /\
    running (initialStore f 7 (Some "7"%string)).
Proof.
  apply (mount_initial_store (Some "7"%string) 7 [0; 0]%Q).
  - repeat constructor; discriminate.
  - exists [], 0%Q, 0%Q, []. repeat split. exists 0%nat. reflexivity.
  - reflexivity.
Defined.

(** ** What the stored best score reads as *)

Lemma trimStart_spaces (s : string) : allChars isWhiteSpace s = true -> trimStart s = EmptyString.
Proof.
  induction s as [|c r IH]; simpl; [reflexivity|].
  intros H. apply andb_true_iff in H. destruct H as [Hc Hr].
  rewrite Hc. exact (IH Hr).
Qed.

Lemma letter_not_space (c : ascii) : isAsciiLetter c = true -> isWhiteSpace c = false.
Proof.
  unfold isAsciiLetter, isWhiteSpace. cbv zeta. intros H.
  apply orb_true_iff in H. apply orb_false_iff.
  destruct H as [H|H]; apply andb_true_iff in H; destruct H as [A B];
    apply Nat.leb_le in A; apply Nat.leb_le in B;
    (split; [apply andb_false_iff; right; apply Nat.leb_gt; lia
            | apply Nat.eqb_neq; lia]).
Qed.

Lemma trimEnd_head (c : ascii) (r : string) :
  isWhiteSpace c = false -> exists r', trimEnd (String c r) = String c r'.
Proof.
  intros H. cbn [trimEnd]. destruct (trimEnd r); [rewrite H|]; eauto.
Qed.

Lemma letter_not_digit (c : ascii) : isAsciiLetter c = true -> digitOf c = None.
Proof.
  unfold isAsciiLetter, digitOf. cbv zeta. intros H.
  replace ((48 <=? nat_of_ascii c) && (nat_of_ascii c <=? 57))%nat with false;
    [reflexivity|].
  symmetry. apply andb_false_iff.
  apply orb_true_iff in H.
  destruct H as [H|H]; apply andb_true_iff in H; destruct H as [A B];
    apply Nat.leb_le in A; apply Nat.leb_le in B; right; apply Nat.leb_gt; lia.
Qed.

Lemma letter_literal (c : ascii) (r : string) :
  isAsciiLetter c = true ->
  unsignedLiteral (String c r) = Some JNaN \/
  unsignedLiteral (String c r) = Some (JInf false).
Proof.
  intros H. unfold unsignedLiteral.
  destruct (String.eqb (String c r) "Infinity"); [right; reflexivity|]. left.
  cbn [digitsValue]. rewrite (letter_not_digit c H), H. reflexivity.
Qed.

Lemma letter_number (c : ascii) (r : string) :
  isAsciiLetter c = true ->
  js_Number (String c r) = Some JNaN \/ js_Number (String c r) = Some (JInf false).
Proof.
  intros H. pose proof (letter_not_space c H) as W.
  unfold js_Number. cbn [trimStart]. rewrite W.
  destruct (trimEnd_head c r W) as [r' E]. rewrite E.
  pose proof (letter_literal c r' H) as L.
  destruct c as [[] [] [] [] [] [] [] []]; try discriminate H; exact L.
Qed.

(** X22: the [best] cell starts at 0 when nothing is stored, when the
    stored string is empty or all white space, and when it starts with a
    letter (so is no number, or is [Infinity]). *)
Theorem initBest_defaults_to_zero :
  initBest None = Some 0 /\
  (forall s, allChars isWhiteSpace s = true -> initBest (Some s) = Some 0) /\
  (forall c r, isAsciiLetter c = true -> initBest (Some (String c r)) = Some 0).
Proof.
  split; [reflexivity|]. split.
  - intros s H. unfold initBest. destruct s as [|c r]; [reflexivity|].
    unfold js_Number. rewrite (trimStart_spaces _ H). reflexivity.
  - intros c r H. unfold initBest.
    destruct (letter_number c r H) as [E|E]; rewrite E; reflexivity.
Qed.

Lemma initBest_defaults_to_zero_witness :
  initBest (Some "  "%string) = Some 0 /\ initBest (Some "high"%string) = Some 0 /\
  initBest (Some "Infinity"%string) = Some 0.
Proof.
  destruct initBest_defaults_to_zero as (_ & Hs & Hl).
  split; [apply Hs; reflexivity|].
  split; apply Hl; reflexivity.
Defined.

(** ** The speed shown *)

(** [BASE_TICK_MS / tickMs] *)
Definition speedMult (st : Store) : Q :=
  inject_Z BASE_TICK_MS / inject_Z (tickMs st).

(** X23: while the tick interval is between 55 and 120 ms, the speed
    multiplier shown is between 1 and 24/11. *)
Theorem speedMult_range (st : Store) :
  MIN_TICK_MS <= tickMs st <= BASE_TICK_MS ->
  (1 <= speedMult st)%Q /\ (speedMult st <= 24 # 11)%Q.
Proof.
  unfold speedMult, MIN_TICK_MS, BASE_TICK_MS. intros [Lo Hi].
  assert (Tq : (0 < inject_Z (tickMs st))%Q).
  { change 0%Q with (inject_Z 0). rewrite <- Zlt_Qlt. lia. }
  rewrite Zle_Qle in Lo, Hi.
  change (inject_Z 55) with 55%Q in Lo. change (inject_Z 120) with 120%Q in *.
  split.
  - apply Qle_shift_div_l; [exact Tq | lra].
  - apply Qle_shift_div_r; [exact Tq | lra].
Qed.

Lemma speedMult_range_witness :
  (1 <= speedMult grownStore)%Q /\ (speedMult grownStore <= 24 # 11)%Q.
Proof.
  apply (speedMult_range grownStore). split; discriminate.
Defined.

(** ** Two ticks in one frame *)

Definition eatFrame : Store := setLast 1000 eatStore.

(** X24: the second tick of a frame still sees the food of the render the
    frame started from.  When the first tick eats and the new food is drawn
    on the next cell ahead, the second tick moves the head onto that cell
    without eating: after the two ticks the food is under the snake's head,
    the snake has grown by one cell only and the score by one point. *)
Theorem second_tick_steps_onto_new_food (st : Store) (tape tape' : list Q)
        (h : Cell) (tl : list Cell) :
  running st ->
  snake st = h :: tl ->
  let nh := advance h (appliedDir st) in
  let nh2 := advance nh (appliedDir st) in
  inBounds nh = true -> inBounds nh2 = true ->
  same nh (food st) = true ->
  ~ In nh (snake st) ->
  ~ In nh2 (nh :: snake st) ->
  placeFood (nh :: snake st) tape = Ret (nh2, tape') ->
  exists st',
    tickTimes 2 st tape st = Ret (st', tape') /\
    food st' = nh2 /\
    snake st' = nh2 :: removelast (nh :: snake st) /\
    In (food st') (snake st') /\
    score st' = score st + 1 /\ gameOver st' = gameOver st.
Proof.
  intros Hrun Hs nh nh2 B1 B2 Heat Off1 Off2 P.
  assert (F1 : existsb (fun s => same s nh) (snake st) = false).
  { apply not_true_iff_false. rewrite some_same_In. exact Off1. }
  destruct (commit_frame st st) as (_ & _ & _ & _ & _ & Cg & _).
  cbn [tickTimes].
  rewrite (step_eat st st tape h tl Hrun Hs B1 Heat F1). fold nh. rewrite P.
  cbn [bind].
  set (st1 := setAcc _ _).
  assert (Hs1 : snake st1 = nh :: snake st) by reflexivity.
  assert (Heat2 : same nh2 (food st) = false).
  { apply same_false_iff. intros E. apply Off2. left.
    apply same_iff in Heat. congruence. }
  assert (F2 : existsb (fun s => same s nh2) (removelast (snake st1)) = false).
  { apply not_true_iff_false. rewrite some_same_In. intros C.
    apply Off2. rewrite Hs1 in C. now apply In_removelast. }
  rewrite (step_move st st1 tape' nh (snake st) Hrun Hs1 B2 Heat2 F2).
  cbn [bind].
  match goal with
  | |- exists _, Ret (?s, _) = _ /\ _ => set (st' := s)
  end.
  destruct (commit_frame st st1) as (_ & Cf1 & Cs1 & _ & _ & Cg1 & _).
  assert (Ef : food st' = nh2) by exact Cf1.
  assert (Es : snake st' = nh2 :: removelast (nh :: snake st)) by reflexivity.
  exists st'. split; [reflexivity|].
  split; [exact Ef|]. split; [exact Es|].
  split; [rewrite Ef, Es; left; reflexivity|].
  split; [exact Cs1|].
  change (gameOver st') with (gameOver (commit st st1)). rewrite Cg1. exact Cg.
Qed.

(** The frame of 250 ms at 120 ms a tick whose first tick eats at (13,12)
    and draws the new food at (14,12). *)
Lemma second_tick_steps_onto_new_food_witness :
  exists st',
    tickTimes 2 eatStore [7 # 12; 1 # 2]%Q eatStore = Ret (st', []) /\
    food st' = {| x := 14; y := 12 |} /\
    snake st' = {| x := 14; y := 12 |}
                :: removelast ({| x := 13; y := 12 |} :: snake eatStore) /\
    In (food st') (snake st') /\
    score st' = score eatStore + 1 /\ gameOver st' = gameOver eatStore.
Proof.
  apply (second_tick_steps_onto_new_food eatStore [7 # 12; 1 # 2]%Q []
           {| x := 12; y := 12 |} [ {| x := 11; y := 12 |}; {| x := 10; y := 12 |} ]).
  - split; reflexivity.
  - reflexivity.
  - reflexivity.
  - reflexivity.
  - reflexivity.
  - intros H. repeat (destruct H as [H|H]; [discriminate H|]). exact H.
  - intros H. repeat (destruct H as [H|H]; [discriminate H|]). exact H.
  - reflexivity.
Defined.

(** The same two ticks as one call of [loop]. *)
Example loop_second_tick_misses_new_food :
  ~ In (food eatFrame) (snake eatFrame) /\
  exists st',
    loop 10 eatStore 1250 [7 # 12; 1 # 2]%Q eatFrame = Ret (st', []) /\
    gameOver st' = false /\ score st' = 1 /\
    food st' = {| x := 14; y := 12 |} /\
    snake st' = [ {| x := 14; y := 12 |}; {| x := 13; y := 12 |};
                  {| x := 12; y := 12 |}; {| x := 11; y := 12 |} ] /\
    In (food st') (snake st').
Proof.
  split.
  - simpl. intros H. repeat (destruct H as [H|H]; [discriminate H|]). exact H.
  - eexists. split; [vm_compute; reflexivity|].
    repeat split. left. reflexivity.
Qed.

(** ** Runs in which every tick sees the live state *)

(** The closure's state cells are those of the live store. *)
Definition snapshotOf (view st : Store) : Prop :=
  dir view = dir st /\ nextDir view = nextDir st /\ food view = food st /\
  score view = score st /\ paused view = paused st /\ gameOver view = gameOver st.

Record wellFormed (st : Store) : Prop := mkWellFormed {
  wf_on_board : onBoard (snake st);
  wf_distinct : NoDup (snake st);
  wf_contiguous : contiguous (snake st);
  wf_food_on_board : inBounds (food st) = true;
  wf_food_off_snake : ~ In (food st) (snake st);
  wf_dirs : unitDirs st;
  wf_tick : MIN_TICK_MS <= tickMs st <= BASE_TICK_MS;
  wf_length : Z.of_nat (List.length (snake st)) = 3 + score st
}.

(** Mount, then keys handled from the latest render (no name inherited
    from [Object.prototype] among them), ticks run from a closure that is a
    snapshot of the live state cells, and updates of the two refs, in any
    order. *)
Inductive freshRun : Store * list Q -> Prop :=
| run_mount (item : option string) (tape : list Q) (r : Store * list Q) :
    Forall unitDraw tape -> mount item tape = Ret r -> freshRun r
| run_key (st : Store) (tape : list Q) (e : KeyboardEvent) (r : Store * list Q) :
    freshRun (st, tape) -> inherited (key e) = false ->
    onKeyDown st e tape st = Ret r -> freshRun r
| run_step (view st : Store) (tape : list Q) (r : Store * list Q) :
    freshRun (st, tape) -> snapshotOf view st -> step view tape st = Ret r -> freshRun r
| run_refs (st : Store) (tape : list Q) (a l : Q) :
    freshRun (st, tape) -> freshRun (setAcc a (setLast l st), tape).

Lemma initial_wellFormed (f : Cell) (b : Z) (item : option string) :
  inBounds f = true -> ~ In f makeInitialSnake -> wellFormed (initialStore f b item).
Proof.
  intros Bf Off. constructor; cbn [snake food dir nextDir tickMs score initialStore].
  - repeat constructor.
  - repeat constructor; simpl; intros H;
      repeat (destruct H as [H|H]; [discriminate H|]); exact H.
  - repeat split.
  - exact Bf.
  - exact Off.
  - split; reflexivity.
  - split; discriminate.
  - reflexivity.
Qed.

Lemma step_dir_view (view st : Store) (tape : list Q) (st' : Store) (tape' : list Q) :
  step view tape st = Ret (st', tape') ->
  dir st' = dir st \/ dir st' = appliedDir view.
Proof.
  assert (C : dir (commit view st) = dir st \/ dir (commit view st) = appliedDir view).
  { unfold commit. destruct (negb (same (appliedDir view) (dir view)));
      [right | left]; reflexivity. }
  unfold step. destruct (gameOver view || paused view).
  - intros H. inversion H. left. reflexivity.
  - fold (commit view st). destruct (snake st) as [|h tl]; [discriminate|].
    cbv zeta.
    repeat match goal with
           | |- context [if ?b then _ else _] => destruct b
           end;
      try (intros H; inversion H; cbn; exact C).
    destruct (placeFood _ tape) as [[f t]| | | |]; simpl; try discriminate.
    intros H; inversion H; cbn; exact C.
Qed.

Lemma step_wellFormed (view st : Store) (tape : list Q) (st' : Store) (tape' : list Q) :
  wellFormed st -> snapshotOf view st -> Forall unitDraw tape ->
  step view tape st = Ret (st', tape') ->
  wellFormed st' /\ Forall unitDraw tape'.
Proof.
  intros [Wb Wd Wc Wfb Wfo [Wdir Wnd] Wt Wl] (Sd & Sn & Sf & Ss & _) Hu R.
  assert (Ha : unitVec (appliedDir view)).
  { unfold appliedDir. rewrite Sd, Sn.
    destruct (negb (opposite (nextDir st) (dir st))); assumption. }
  assert (N : forall h, neighbours (advance h (appliedDir view)) h).
  { intros h. unfold neighbours, advance, unitVec in *. cbn [x y]. lia. }
  assert (Dirs : unitDirs st').
  { split.
    - destruct (step_dir_view view st tape st' tape' R) as [E|E]; rewrite E; assumption.
    - rewrite (step_nextDir view st tape st' tape' R). exact Wnd. }
  destruct (step_inv view st tape st' tape' R)
    as [E F S T Tp | h tl Hs B Off Heat P E S T | h tl Hs B Off Heat E F S T Tp].
  - subst tape'. split; [|exact Hu].
    constructor; rewrite ?E, ?F, ?S, ?T; assumption.
  - destruct (placeFood_inBounds _ _ _ _ Hu P) as [Bf Hu'].
    split; [|exact Hu'].
    constructor; rewrite ?E, ?S, ?T; try assumption.
    + constructor; assumption.
    + constructor; assumption.
    + rewrite Hs. split; [apply N | rewrite <- Hs; exact Wc].
    + exact (placeFood_free _ _ _ _ P).
    + split; [apply nextTick_floor|].
      apply Z.le_trans with (tickMs st); [apply nextTick_le|]; lia.
    + cbn [List.length]. rewrite Ss. lia.
  - subst tape'. split; [|exact Hu].
    constructor; rewrite ?E, ?F, ?S, ?T; try assumption.
    + constructor; [exact B | now apply Forall_removelast].
    + constructor; [exact Off | now apply NoDup_removelast].
    + pose proof (contiguous_removelast _ Wc) as Hr. rewrite Hs in Hr |- *.
      destruct tl as [|b tl]; [exact I|].
      split; [apply N | exact Hr].
    + intros [C|C].
      * rewrite Sf in Heat. apply same_false_iff in Heat. exact (Heat C).
      * apply Wfo. now apply In_removelast.
    + destruct (length_removelast_cons _ (advance h (appliedDir view)) (snake st)) as [L|L].
      * rewrite L. exact Wl.
      * rewrite L in Hs. discriminate Hs.
Qed.

Lemma key_wellFormed (st : Store) (e : KeyboardEvent) (tape : list Q)
      (st' : Store) (tape' : list Q) :
  wellFormed st -> Forall unitDraw tape ->
  onKeyDown st e tape st = Ret (st', tape') ->
  wellFormed st' /\ Forall unitDraw tape'.
Proof.
  intros W Hu. pose proof W as [Wb Wd Wc Wfb Wfo [Wdir Wnd] Wt Wl]. unfold onKeyDown.
  destruct (String.eqb (code e) "Space").
  { intros H. inversion H; subst tape'. split; [|exact Hu].
    destruct (negb (gameOver st)); [|exact W]. constructor; assumption || (split; assumption). }
  destruct (String.eqb (key e) "r" || String.eqb (key e) "R").
  { intros H. destruct (reset_effect _ _ _ _ H) as (P & S & D & N & Sc & T & _).
    destruct (placeFood_inBounds _ _ _ _ Hu P) as [Bf Hu'].
    pose proof (placeFood_free _ _ _ _ P) as Off.
    pose proof (initial_wellFormed (food st') 0 None Bf Off) as [Ib Id Ic _ _ _ _ _].
    cbn [snake initialStore] in Ib, Id, Ic.
    split; [|exact Hu'].
    constructor; rewrite ?S, ?D, ?N, ?Sc, ?T; try assumption.
    - unfold unitDirs. rewrite D, N. split; reflexivity.
    - split; discriminate.
    - reflexivity. }
  destruct (lookup (key e) dirs) as [d|] eqn:L.
  - intros H. inversion H; subst tape'. split; [|exact Hu].
    destruct (negb (opposite d (dir st))); [|exact W].
    constructor; try assumption. split; [exact Wdir | exact (dirs_unit _ _ L)].
  - destruct (inherited (key e)); [discriminate|].
    intros H. inversion H; subst. split; assumption.
Qed.

Lemma freshRun_invariant (r : Store * list Q) :
  freshRun r -> wellFormed (fst r) /\ Forall unitDraw (snd r).
Proof.
  induction 1 as [item tape r Hu M | st tape e r _ IH _ K | view st tape r _ IH S R
                 | st tape a l _ IH].
  - unfold mount in M.
    destruct (placeFood makeInitialSnake tape) as [[f t]| | | |] eqn:P; simpl in M;
      try discriminate M.
    destruct (initBest item) as [b|]; [|discriminate M]. inversion M; subst r.
    destruct (placeFood_inBounds _ _ _ _ Hu P) as [Bf Hu'].
    split; [|exact Hu'].
    apply initial_wellFormed; [exact Bf | exact (placeFood_free _ _ _ _ P)].
  - destruct r as [st' tape']. destruct IH as [W Hu].
    exact (key_wellFormed st e tape st' tape' W Hu K).
  - destruct r as [st' tape']. destruct IH as [W Hu].
    exact (step_wellFormed view st tape st' tape' W S Hu R).
  - destruct IH as [[Wb Wd Wc Wfb Wfo Wdirs Wt Wl] Hu]. split; [|exact Hu].
    constructor; assumption.
Qed.

(** X25: in every run made of the mount, keys handled from the latest
    render and not named like a member inherited from [Object.prototype],
    ticks whose closure is a snapshot of the live state cells and updates
    of the refs, with draws in [0,1): the snake is a chain of
    distinct side-by-side cells on the board, the food is on the board and
    off the snake, the directions are unit steps, the tick interval is
    between 55 and 120 ms, and the snake has 3 cells plus one per point
    of score. *)
Theorem freshRun_wellFormed (st : Store) (tape : list Q) :
  freshRun (st, tape) -> wellFormed st.
Proof.
  intros H. exact (proj1 (freshRun_invariant (st, tape) H)).
Qed.

Lemma freshRun_wellFormed_witness : wellFormed movedStore.
Proof.
  apply (freshRun_wellFormed movedStore []).
  apply (run_step startStore startStore [] (movedStore, [])).
  - apply (run_mount None [1 # 8; 1 # 6]%Q (startStore, [])).
    + repeat constructor; discriminate.
    + reflexivity.
  - repeat split.
  - reflexivity.
Defined.
